(** * LISSerialInterface: stream framer and GluQuant HbA1c protocol parser

    Shallow embedding of [src/unnamed/part_000] (class [LISSerialInterface]).

    Characters: the framer iterates [for (const char of ascii)] over the
    UTF-8 decoded chunk.  A character is modelled as a code point in
    U+0000..U+00FF, represented by Rocq's 8-bit [ascii]; each such code point
    is one UTF-16 unit, so JS [.length] is the list length. *)

From Stdlib Require Import Ascii String ZArith Lia.
From Stdlib Require Import SpecFloat.
From stdpp Require Import base list gmap strings.

Open Scope list_scope.

Definition text := list ascii.

Definition lit (s : string) : text := list_ascii_of_string s.

(** ** String helpers with JS semantics *)

(** [p] is a prefix of [s]. *)
Fixpoint prefixb (p s : text) : bool :=
  match p, s with
  | [], _ => true
  | a :: p', b :: s' => bool_decide (a = b) && prefixb p' s'
  | _ :: _, [] => false
  end.

(** [s.includes(p)] *)
Fixpoint includes (p s : text) : bool :=
  prefixb p s || match s with [] => false | _ :: s' => includes p s' end.

(** ** Framer (the [_consumeChar] state machine) *)

Definition START : text := lit "<SEND>".
Definition END_ : text := lit "</SEND>".

(** [this.state]: "IDLE" or "RECEIVING". *)
Inductive fstate := IDLE | RECEIVING.

Record framer := mkFramer { state : fstate; messageBuffer : text }.

(** Constructor: [this.state = "IDLE"; this.messageBuffer = ""]. *)
Definition fresh : framer := mkFramer IDLE [].

(** [100_000] *)
Definition ceiling : Z := 100000.

Definition is_idle (s : fstate) : bool :=
  match s with IDLE => true | RECEIVING => false end.

Definition is_receiving (s : fstate) : bool :=
  match s with IDLE => false | RECEIVING => true end.

(** [_consumeChar(char)]: the new framer and the message handed to
    [_handleCompleteMessage], if any. *)
Definition consumeChar (f : framer) (c : ascii) : framer * option text :=
  let buf := messageBuffer f ++ [c] in
  (* Detect START *)
  if is_idle (state f) && includes START buf then (mkFramer RECEIVING START, None)
  else
    (* Detect END *)
    let '(f1, out) :=
      if is_receiving (state f) && includes END_ buf
      then (mkFramer IDLE [], Some buf)
      else (mkFramer (state f) buf, None) in
    (* Safety: prevent runaway memory *)
    if Z.ltb ceiling (Z.of_nat (length (messageBuffer f1)))
    then (mkFramer IDLE [], out)
    else (f1, out).

Definition opt_list {A} (o : option A) : list A :=
  match o with Some x => [x] | None => [] end.

(** [for (const char of ascii) this._consumeChar(char)]: the final framer
    and the complete messages, in order. *)
Fixpoint run (f : framer) (s : text) : framer * list text :=
  match s with
  | [] => (f, [])
  | c :: s' =>
      let '(f1, o) := consumeChar f c in
      let '(f2, os) := run f1 s' in
      (f2, opt_list o ++ os)
  end.

(** [_onData(data)] on the text of one chunk, [data.toString("utf8")].
    The UTF-8 decoding of each Buffer is not modelled: a chunk here is the
    decoded text, so chunks are splits of the text at character
    boundaries. *)
Definition onData (f : framer) (chunk : text) : framer * list text := run f chunk.

(** The transport's ["data"] events, one chunk after another. *)
Fixpoint feed (f : framer) (chunks : list text) : framer * list text :=
  match chunks with
  | [] => (f, [])
  | ch :: cs =>
      let '(f1, o1) := onData f ch in
      let '(f2, o2) := feed f1 cs in
      (f2, o1 ++ o2)
  end.

(** ** JS whitespace, [trim], [split], line-ending normalisation *)

(** WhiteSpace and LineTerminator code points below U+0100: TAB, LF, VT, FF,
    CR, SPACE, NO-BREAK SPACE.  This is also the class [\s] of JS regexes. *)
Definition is_js_space (c : ascii) : bool :=
  let n := nat_of_ascii c in
  (n =? 9) || (n =? 10) || (n =? 11) || (n =? 12) || (n =? 13) || (n =? 32) || (n =? 160).

(** LineTerminator code points below U+0100 (LF, CR): what [.] excludes. *)
Definition is_line_terminator (c : ascii) : bool :=
  let n := nat_of_ascii c in (n =? 10) || (n =? 13).

Fixpoint trim_start (s : text) : text :=
  match s with
  | c :: s' => if is_js_space c then trim_start s' else s
  | [] => []
  end.

Definition trim_end (s : text) : text := rev (trim_start (rev s)).

(** [s.trim()] *)
Definition trim (s : text) : text := trim_end (trim_start s).

(** [s.split(sep)] for a one-character separator. *)
Fixpoint split_on (sep : ascii) (s : text) : list text :=
  match s with
  | [] => [[]]
  | c :: s' =>
      let rest := split_on sep s' in
      if bool_decide (c = sep) then [] :: rest
      else match rest with
           | [] => [[c]]
           | w :: ws => (c :: w) :: ws
           end
  end.

Definition CR : ascii := "013"%char.
Definition LF : ascii := "010"%char.

(** [raw.replace(/\r\n/g, "\n")] *)
Fixpoint replace_crlf (s : text) : text :=
  match s with
  | c :: ((d :: s'') as s') =>
      if bool_decide (c = CR) && bool_decide (d = LF) then LF :: replace_crlf s''
      else c :: replace_crlf s'
  | _ => s
  end.

(** [.replace(/\r/g, "\n")] *)
Definition replace_cr (s : text) : text :=
  map (fun c => if bool_decide (c = CR) then LF else c) s.

(** JS truthiness of a string. *)
Definition truthy (s : text) : bool :=
  match s with [] => false | _ => true end.

(** ** The three regexes of [parseProtocol]

    [s.match(re)] without the [g] flag: the match at the leftmost position
    where the pattern matches, with backtracking order deciding the group. *)

(** Try a match at every position, leftmost first. *)
Fixpoint search {A} (try : text -> option A) (s : text) : option A :=
  match try s with
  | Some x => Some x
  | None => match s with [] => None | _ :: s' => search try s' end
  end.

(** [(.*?)<close>]: the shortest run of non-line-terminators followed by
    [close]; [acc] holds the group read so far, reversed. *)
Fixpoint lazy_dot (close acc s : text) : option text :=
  if prefixb close s then Some (rev acc)
  else match s with
       | [] => None
       | c :: s' => if is_line_terminator c then None else lazy_dot close (c :: acc) s'
       end.

(** [([\s\S]*?)\s*<close>]: the shortest group after which a run of [\s]
    and then [close] follow.  Since [close] starts with ['<'], which is not
    in [\s], the trailing [\s*] matches exactly the maximal whitespace run. *)
Fixpoint lazy_any_ws (close acc s : text) : option text :=
  if prefixb close (trim_start s) then Some (rev acc)
  else match s with
       | [] => None
       | c :: s' => lazy_any_ws close (c :: acc) s'
       end.

(** [/<M>(.*?)<\/M>/] *)
Definition match_M (s : text) : option text :=
  search (fun t => if prefixb (lit "<M>") t then lazy_dot (lit "</M>") [] (drop 3 t) else None) s.

(** [/<X>\s*([\s\S]*?)\s*<\/X>/] for X = I and X = R.  The leading greedy
    [\s*] takes the maximal whitespace run: giving back whitespace cannot
    produce a match where the maximal run has none, because a later
    [\s*<\/X>] must still end on the same ['<']. *)
Definition match_ws_section (open close : text) (s : text) : option text :=
  search (fun t => if prefixb open t
                   then lazy_any_ws close [] (trim_start (drop (length open) t))
                   else None) s.

Definition match_I (s : text) : option text := match_ws_section (lit "<I>") (lit "</I>") s.
Definition match_R (s : text) : option text := match_ws_section (lit "<R>") (lit "</R>") s.

(** ** JS numbers: binary64 as [spec_float]

    A JS number is an IEEE binary64 value, modelled by the Standard
    Library's [spec_float] at precision 53 and [emax] 1024, always in the
    canonical form produced by its rounding functions.  NaN is [S754_nan]. *)

Definition double := spec_float.
Definition prec : Z := 53.
Definition emax : Z := 1024.
Definition NaN : double := S754_nan.

Definition is_nan (x : double) : bool :=
  match x with S754_nan => true | _ => false end.

(** JS [<] on numbers: false as soon as one side is NaN. *)
Definition js_lt (x y : double) : bool := SFltb x y.

(** The unsigned part of a StrDecimalLiteral: [Infinity], or
    digits * 10^exp. *)
Inductive dec_lit := DInf | DFin (m : Z) (e : Z).

Definition digit_of (c : ascii) : option Z :=
  let n := nat_of_ascii c in
  if (48 <=? n) && (n <=? 57) then Some (Z.of_nat n - 48)%Z else None.

(** Maximal run of decimal digits. *)
Fixpoint take_digits (s : text) : list Z * text :=
  match s with
  | c :: s' =>
      match digit_of c with
      | Some d => let '(ds, r) := take_digits s' in (d :: ds, r)
      | None => ([], s)
      end
  | [] => ([], [])
  end.

Definition digits_to_Z (ds : list Z) : Z := fold_left (fun a d => 10 * a + d)%Z ds 0%Z.

(** ExponentPart, taken only when complete ([e], optional sign, digits). *)
Definition parse_exponent (s : text) : Z * text :=
  match s with
  | c :: s' =>
      if bool_decide (c = "e"%char) || bool_decide (c = "E"%char) then
        let '(sg, s'') :=
          match s' with
          | d :: r => if bool_decide (d = "+"%char) then (1%Z, r)
                      else if bool_decide (d = "-"%char) then ((-1)%Z, r)
                      else (1%Z, s')
          | [] => (1%Z, s')
          end in
        let '(ds, r) := take_digits s'' in
        match ds with
        | [] => (0%Z, s)
        | _ => ((sg * digits_to_Z ds)%Z, r)
        end
      else (0%Z, s)
  | [] => (0%Z, s)
  end.

(** The longest prefix of [s] that is a StrUnsignedDecimalLiteral, with the
    rest of [s]. *)
Definition parse_unsigned (s : text) : option (dec_lit * text) :=
  if prefixb (lit "Infinity") s then Some (DInf, drop 8 s)
  else
    let '(is, r1) := take_digits s in
    let '(fs, r2) :=
      match r1 with
      | c :: r => if bool_decide (c = "."%char) then take_digits r else ([], r1)
      | [] => ([], r1)
      end in
    match is, fs with
    | [], [] => None
    | _, _ =>
        let '(ex, r3) := parse_exponent r2 in
        Some (DFin (digits_to_Z (is ++ fs)) (ex - Z.of_nat (length fs))%Z, r3)
    end.

(** The longest prefix that is a StrDecimalLiteral: sign, literal, rest. *)
Definition parse_decimal (s : text) : option (bool * dec_lit * text) :=
  match s with
  | c :: r =>
      if bool_decide (c = "+"%char) then
        match parse_unsigned r with Some (d, t) => Some (false, d, t) | None => None end
      else if bool_decide (c = "-"%char) then
        match parse_unsigned r with Some (d, t) => Some (true, d, t) | None => None end
      else match parse_unsigned s with Some (d, t) => Some (false, d, t) | None => None end
  | [] => None
  end.

(** The mathematical value [(-1)^neg * m * 10^e] rounded to the nearest
    binary64, ties to even.  Values with [e > 309] are at least 1e310 and
    round to infinity; values below [2^-1075] round to zero. *)
Definition round_decimal (neg : bool) (m e : Z) : double :=
  match m with
  | Zpos p =>
      if (309 <? e)%Z then S754_infinity neg
      else if (0 <=? e)%Z then binary_round prec emax neg (p * Z.to_pos (10 ^ e))%positive 0
      else if (Z.log2 m + 1077 <? - e)%Z then S754_zero neg
      else SFdiv prec emax (S754_finite neg p 0) (S754_finite false (Z.to_pos (10 ^ (- e))) 0)
  | _ => S754_zero neg
  end.

Definition dec_value (neg : bool) (d : dec_lit) : double :=
  match d with
  | DInf => S754_infinity neg
  | DFin m e => round_decimal neg m e
  end.

(** [parseFloat(s)] *)
Definition parseFloat (s : text) : double :=
  match parse_decimal (trim_start s) with
  | Some (neg, d, _) => dec_value neg d
  | None => NaN
  end.

(** Digits of a NonDecimalIntegerLiteral in base 2, 8 or 16. *)
Definition radix_digit (radix : Z) (c : ascii) : option Z :=
  let n := Z.of_nat (nat_of_ascii c) in
  let v := if (48 <=? n)%Z && (n <=? 57)%Z then Some (n - 48)%Z
           else if (97 <=? n)%Z && (n <=? 102)%Z then Some (n - 87)%Z
           else if (65 <=? n)%Z && (n <=? 70)%Z then Some (n - 55)%Z
           else None in
  match v with
  | Some d => if (d <? radix)%Z then Some d else None
  | None => None
  end.

Fixpoint radix_value (radix acc : Z) (s : text) : option Z :=
  match s with
  | [] => Some acc
  | c :: s' =>
      match radix_digit radix c with
      | Some d => radix_value radix (radix * acc + d)%Z s'
      | None => None
      end
  end.

(** [0b], [0o] or [0x] followed by at least one digit, the whole string. *)
Definition parse_non_decimal (s : text) : option Z :=
  match s with
  | z :: b :: ((_ :: _) as ds) =>
      if bool_decide (z = "0"%char) then
        let radix :=
          if bool_decide (b = "x"%char) || bool_decide (b = "X"%char) then 16%Z
          else if bool_decide (b = "o"%char) || bool_decide (b = "O"%char) then 8%Z
          else if bool_decide (b = "b"%char) || bool_decide (b = "B"%char) then 2%Z
          else 0%Z in
        if (radix =? 0)%Z then None else radix_value radix 0 ds
      else None
  | _ => None
  end.

(** [Number(s)] on a string (StringToNumber): the trimmed string must be a
    StrNumericLiteral as a whole; the empty string is 0. *)
Definition js_number (s : text) : double :=
  let t := trim s in
  match t with
  | [] => S754_zero false
  | _ =>
      match parse_non_decimal t with
      | Some v => round_decimal false v 0
      | None =>
          match parse_decimal t with
          | Some (neg, d, []) => dec_value neg d
          | _ => NaN
          end
      end
  end.

(** [Number(x)] where [x] is a string or [undefined] (NaN). *)
Definition js_number_opt (o : option text) : double :=
  match o with Some s => js_number s | None => NaN end.

(** Number literals of the source. *)
Definition num (m e : Z) : double := round_decimal false m e.

(** ** [parseProtocol] *)

(** [{ model, serialNumber }]; [None] is [undefined]. *)
Record machine_fields := mkMachine {
  model : option text;
  serialNumber : option text
}.

Record sample_fields := mkSample {
  recordType : option text;
  analysisTime : option text;
  sampleId : option text;
  samplePosition : option text;
  sampleTypeCode : double;
  sampleType : text
}.

Record result_entry := mkEntry {
  value : double;
  unit : text;
  interpretation : option text
}.

(** [machineInfo] and [sampleInfo] start as [{}] ([None]) and are replaced
    by a new object when their section matches. *)
Record DecodedResult := mkDecoded {
  machineInfo : option machine_fields;
  sampleInfo : option sample_fields;
  results : gmap text result_entry;
  raw : text;
  receivedAt : text
}.

(** [typeMap[Number(parts[4])] || "unknown"].  The property key is
    Number::toString of the code, which is "0", "1", "2" or "3" exactly when
    the code equals 0 (or -0), 1, 2 or 3. *)
Definition sample_type_of (code : double) : text :=
  if SFeqb code (num 0 0) then lit "whole_blood"
  else if SFeqb code (num 1 0) then lit "quality_control"
  else if SFeqb code (num 2 0) then lit "calibration"
  else if SFeqb code (num 3 0) then lit "diluted"
  else lit "unknown".

(** The values of [typeMap], by key 0, 1, 2, 3. *)
Definition typeMap : list text :=
  [lit "whole_blood"; lit "quality_control"; lit "calibration"; lit "diluted"].

Definition machine_of (g : text) : machine_fields :=
  let parts := split_on "|"%char g in
  mkMachine (option_map trim (nth_error parts 0)) (option_map trim (nth_error parts 1)).

Definition sample_of (g : text) : sample_fields :=
  let parts := split_on "|"%char (trim g) in
  mkSample (nth_error parts 0) (nth_error parts 1) (nth_error parts 2) (nth_error parts 3)
    (js_number_opt (nth_error parts 4))
    (sample_type_of (js_number_opt (nth_error parts 4))).

(** [r[1].split("\n").map((l) => l.trim()).filter(Boolean)] *)
Definition r_lines (body : text) : list text :=
  List.filter truthy (map trim (split_on LF body)).

Definition unit_pct : text := lit "%".

(** The [forEach] callback on one line.  [result.results] is a plain
    object used as a map: [results[key] = {...}] followed by a read of
    [results[key]] is modelled as [insert] and [lookup].  (For the key
    ["__proto__"] the assignment replaces the object's prototype instead of
    creating an own property; a read of that key still returns the entry.) *)
Definition r_step (acc : gmap text result_entry) (line : text) : gmap text result_entry :=
  match split_on "|"%char line with
  | key :: rest =>
      match head rest with
      | Some val =>
          if truthy key && truthy val
          then <[key := mkEntry (parseFloat val) unit_pct None]> acc
          else acc
      | None => acc
      end
  | [] => acc
  end.

Definition results_of (body : text) : gmap text result_entry :=
  fold_left r_step (r_lines body) ∅.

Definition HbA1c : text := lit "HbA1c".

(** [v < 5.7 ? "Normal" : v < 6.5 ? "Prediabetes" : "Diabetes"] *)
Definition classify (v : double) : text :=
  if js_lt v (num 57 (-1)) then lit "Normal"
  else if js_lt v (num 65 (-1)) then lit "Prediabetes"
  else lit "Diabetes".

(** [if (result.results.HbA1c) { ... .interpretation = ... }] *)
Definition interpret (res : gmap text result_entry) : gmap text result_entry :=
  match res !! HbA1c with
  | Some e => <[HbA1c := mkEntry (value e) (unit e) (Some (classify (value e)))]> res
  | None => res
  end.

(** [raw.replace(/\r\n/g, "\n").replace(/\r/g, "\n")] *)
Definition clean_of (raw : text) : text := replace_cr (replace_crlf raw).

(** [parseProtocol(raw)]; [now] is [new Date().toISOString()]. *)
Definition parseProtocol (now raw : text) : DecodedResult :=
  let clean := clean_of raw in
  let mi := option_map machine_of (match_M clean) in
  let si := option_map sample_of (match_I clean) in
  let rs := match match_R clean with Some body => results_of body | None => ∅ end in
  mkDecoded mi si (interpret rs) raw now.

Definition spec_example : text :=
  lit "<SEND>
<M>GQ-1000|SN123</M>
<I>
0|2024-01-01T10:00|S1|A1|0
</I>
<R>
HbA1c|5.4
</R>
</SEND>".

(** ** [_handleCompleteMessage] and the events of the interface *)

(** The ["results"] and ["error"] events. *)
Inductive event (R E : Type) := EvResults (r : R) | EvError (e : E).
Arguments EvResults {R E} r.
Arguments EvError {R E} e.

Section Handler.
Context {R E : Type}.

(** [this.parseProtocol(message)]: returns a record ([inl]) or throws
    ([inr]).  Listeners for both events are assumed registered. *)
Variable decode : text -> R + E.

(** [try { emit("results", parse(message)) } catch (err) { emit("error", err) }] *)
Definition handleCompleteMessage (m : text) : event R E :=
  match decode m with
  | inl r => EvResults r
  | inr e => EvError e
  end.

(** [_consumeChar] with the call to [_handleCompleteMessage]: the state
    is reset before the handler runs, and the handler does not touch it. *)
Definition consumeChar_ev (f : framer) (c : ascii) : framer * list (event R E) :=
  let '(f', o) := consumeChar f c in (f', map handleCompleteMessage (opt_list o)).

Fixpoint run_ev (f : framer) (s : text) : framer * list (event R E) :=
  match s with
  | [] => (f, [])
  | c :: s' =>
      let '(f1, o) := consumeChar_ev f c in
      let '(f2, os) := run_ev f1 s' in
      (f2, o ++ os)
  end.
End Handler.

(** [parseProtocol] as the decoder: it never throws. *)
Definition decode_protocol {E} (now : text) (m : text) : DecodedResult + E :=
  inl (parseProtocol now m).

(** ** Framer invariant *)

(** In RECEIVING the buffer starts with [<SEND>] and has no [</SEND>]; in
    IDLE it has no [<SEND>]. *)
Definition inv (f : framer) : Prop :=
  match state f with
  | IDLE => includes START (messageBuffer f) = false
  | RECEIVING => prefixb START (messageBuffer f) = true /\
                 includes END_ (messageBuffer f) = false
  end.

(** What an emitted message looks like. *)
Definition message_shape (m : text) : Prop :=
  prefixb START m = true /\ (exists l, m = l ++ END_) /\
  (forall l r, m = l ++ END_ ++ r -> r = []).

(** A complete message, decided: starts with [<SEND>], ends with
    [</SEND>], and has no earlier [</SEND>]. *)
Definition message_shapeb (m : text) : bool :=
  prefixb START m && prefixb (rev_append END_ []) (rev_append m []) &&
  negb (includes END_ (removelast m)).

(** A message of 100,008 characters. *)
Definition long_message : text :=
  START ++ repeat "a"%char (Z.to_nat 99994) ++ ["a"%char] ++ END_.

(** 100,000 characters of noise ending in an unfinished start delimiter. *)
Definition idle_prefix : text := repeat "a"%char (Z.to_nat 99995) ++ lit "<SEND".

(** A message buffer of 100,000 characters lacking only the final [>]. *)
Definition receiving_prefix : text := repeat "a"%char (Z.to_nat 99988) ++ lit "</SEND".

(** ** The logged form of a chunk in [_onData] *)

(** [/[\x00-\x08\x0B-\x0C\x0E-\x1F\x7F]/] *)
Definition is_logged_control (c : ascii) : bool :=
  let n := nat_of_ascii c in
  (n <=? 8) || ((11 <=? n) && (n <=? 12)) || ((14 <=? n) && (n <=? 31)) || (n =? 127).

(** A digit of [n.toString(16)]: [0-9], then lower-case [a-f]. *)
Definition hex_digit (n : nat) : ascii :=
  ascii_of_nat (if n <? 10 then 48 + n else 87 + n).

(** [n.toString(16)] for [n < 256]: no leading zeros. *)
Definition to_hex (n : nat) : text :=
  if n <? 16 then [hex_digit n] else [hex_digit (n / 16); hex_digit (n mod 16)].

(** [(c) => `[0x${c.charCodeAt(0).toString(16)}]`] *)
Definition control_label (c : ascii) : text :=
  lit "[0x" ++ to_hex (nat_of_ascii c) ++ lit "]".

(** [ascii.replace(/[...]/g, (c) => ...)] *)
Definition printable (s : text) : text :=
  flat_map (fun c => if is_logged_control c then control_label c else [c]) s.

(** ** Inputs built from other inputs *)

(** A text with every LF written as CR LF, and with every LF written as CR:
    the same message sent with Windows or old Mac line endings. *)
Definition to_crlf (s : text) : text :=
  flat_map (fun c => if bool_decide (c = LF) then [CR; LF] else [c]) s.

Definition to_cr (s : text) : text :=
  map (fun c => if bool_decide (c = LF) then CR else c) s.

(** The messages [ms] occur in [s] one after the other, without overlap. *)
Fixpoint in_order (ms : list text) (s : text) : Prop :=
  match ms with
  | [] => True
  | m :: ms' => exists p q, s = p ++ m ++ q /\ in_order ms' q
  end.

(** Inputs of the decoder. *)
Definition nan_hba1c_message : text := lit "<SEND><R>HbA1c|abc</R></SEND>".

Definition blank_code_message : text := lit "<SEND><I>0|t|S1|A1|</I></SEND>".

Definition short_record_message : text := lit "<SEND><I>0|t</I></SEND>".

Definition results_message : text := lit "<SEND><R>
HbA1c|abc

X|
|3
Y
Z|1.5|extra
</R></SEND>".

Definition boundary_message : text := lit "<SEND><R>HbA1c|5.7</R></SEND>".

Definition bare_message : text := lit "<SEND></SEND>".

(** ** Examples *)

Example run_simple :
  run fresh (lit "xx<SEND>ab</SEND>yy") = (mkFramer IDLE (lit "yy"), [lit "<SEND>ab</SEND>"]).
Proof. reflexivity. Qed.


Example match_M_ex : match_M (lit "a<M>GQ|SN</M>") = Some (lit "GQ|SN").
Proof. reflexivity. Qed.


Example match_I_ex :
  match_I (lit "<I>
 0|t|S1 
</I>") = Some (lit "0|t|S1").
Proof. reflexivity. Qed.


Example spec_example_decodes :
  let d := parseProtocol [] spec_example in
  machineInfo d = Some (mkMachine (Some (lit "GQ-1000")) (Some (lit "SN123"))) /\
  option_map sampleType (sampleInfo d) = Some (lit "whole_blood") /\
  results d !! HbA1c = Some (mkEntry (num 54 (-1)) unit_pct (Some (lit "Normal"))).
Proof. vm_compute. repeat split; reflexivity. Qed.


(** *** [prefixb] and [includes] *)

Lemma prefixb_spec (p s : text) : prefixb p s = true <-> exists r, s = p ++ r.
Proof.
  revert s; induction p as [|a p IH]; intros s; simpl.
  - split; eauto.
  - destruct s as [|b s].
    + split; [discriminate|]. intros [r Hr]; discriminate.
    + rewrite andb_true_iff, IH. case_bool_decide; subst; split.
      * intros [_ [r ->]]. eauto.
      * intros [r Hr]. injection Hr as ->. eauto.
      * intros [? _]; discriminate.
      * intros [r Hr]. injection Hr as -> _. congruence.
Qed.

Lemma includes_spec (p s : text) :
  includes p s = true <-> exists l r, s = l ++ p ++ r.
Proof.
  induction s as [|b s IH]; simpl.
  - rewrite orb_false_r, prefixb_spec. split.
    + intros [r Hr]. exists [], r. done.
    + intros [l [r Hr]]. destruct l; [|discriminate]. eauto.
  - rewrite orb_true_iff, prefixb_spec, IH. split.
    + intros [[r Hr]|[l [r Hr]]].
      * exists [], r. done.
      * exists (b :: l), r. rewrite Hr. done.
    + intros [l [r Hr]]. destruct l as [|a l].
      * left. eauto.
      * right. injection Hr as -> Hr. eauto.
Qed.

Lemma includes_false (p s : text) :
  includes p s = false <-> forall l r, s <> l ++ p ++ r.
Proof.
  split.
  - intros H l r E. assert (includes p s = true) by (apply includes_spec; eauto).
    congruence.
  - intros H. destruct (includes p s) eqn:E; [|done].
    apply includes_spec in E as (l & r & ?). exfalso; eapply H; eauto.
Qed.

Lemma includes_app_l (p s t : text) : includes p s = true -> includes p (s ++ t) = true.
Proof.
  rewrite !includes_spec. intros (l & r & ->). exists l, (r ++ t).
  by rewrite <- !app_assoc.
Qed.

Lemma includes_app_r (p s t : text) : includes p t = true -> includes p (s ++ t) = true.
Proof.
  rewrite !includes_spec. intros (l & r & ->). exists (s ++ l), r.
  by rewrite <- !app_assoc.
Qed.

Lemma includes_app_false_l (p s t : text) :
  includes p (s ++ t) = false -> includes p s = false.
Proof.
  intros H. destruct (includes p s) eqn:E; [|done].
  rewrite (includes_app_l _ _ t E) in H. done.
Qed.

(** A delimiter that newly appears when a character is appended is a suffix. *)
Lemma includes_snoc_suffix (p s : text) (c : ascii) :
  includes p (s ++ [c]) = true -> includes p s = false ->
  exists l, s ++ [c] = l ++ p.
Proof.
  rewrite includes_spec, includes_false. intros (l & r & E) Hs.
  induction r as [|x r _] using rev_ind.
  - exists l. rewrite E. by rewrite app_nil_r.
  - rewrite !app_assoc in E. apply app_inj_tail in E as [E _].
    exfalso. apply (Hs l r). rewrite E. by rewrite <- !app_assoc.
Qed.

(** A text without one of the delimiter's characters does not include it. *)
Lemma includes_absent_char (p s : text) (x : ascii) :
  x ∈ p -> x ∉ s -> includes p s = false.
Proof.
  intros Hp Hs. apply includes_false. intros l r ->.
  apply Hs. set_solver.
Qed.

(** *** Runs *)

Arguments prefixb : simpl never.
Arguments includes : simpl never.

Lemma run_app (f : framer) (s t : text) :
  run f (s ++ t) =
  let '(f1, o1) := run f s in let '(f2, o2) := run f1 t in (f2, o1 ++ o2).
Proof.
  revert f; induction s as [|c s IH]; intros f; simpl.
  - by destruct (run f t).
  - destruct (consumeChar f c) as [f1 o] eqn:E1. rewrite IH.
    destruct (run f1 s) as [f2 o2]. destruct (run f2 t) as [f3 o3].
    by rewrite app_assoc.
Qed.

(** Chunk boundaries do not matter: [_onData] only iterates characters. *)
Lemma feed_run (f : framer) (chunks : list text) :
  feed f chunks = run f (concat chunks).
Proof.
  revert f; induction chunks as [|ch cs IH]; intros f; simpl; [done|].
  unfold onData. rewrite run_app. destruct (run f ch) as [f1 o1].
  by rewrite IH.
Qed.

Ltac split_consume :=
  unfold consumeChar in *; simpl in *;
  repeat (case_match; simplify_eq/=).

Lemma start_shape : prefixb START START = true /\ includes END_ START = false.
Proof. split; reflexivity. Qed.

Lemma consumeChar_inv (f : framer) (c : ascii) : inv f -> inv (fst (consumeChar f c)).
Proof.
  destruct f as [[|] b]; unfold inv; simpl; intros Hinv; split_consume;
    try apply start_shape; try done.
  destruct Hinv as [Hp _]. split; [|done].
  apply prefixb_spec in Hp as [r ->]. apply prefixb_spec. exists (r ++ [c]).
  by rewrite app_assoc.
Qed.

(** A buffer that newly includes [</SEND>] is a complete message. *)
Lemma emitted_shape (b : text) (c : ascii) :
  prefixb START b = true -> includes END_ b = false ->
  includes END_ (b ++ [c]) = true -> message_shape (b ++ [c]).
Proof.
  intros Hp Hn He. split; [|split].
  - apply prefixb_spec in Hp as [r ->]. apply prefixb_spec. exists (r ++ [c]).
    by rewrite app_assoc.
  - by apply includes_snoc_suffix.
  - intros l r E. induction r as [|x r _] using rev_ind; [done|].
    rewrite !app_assoc in E. apply app_inj_tail in E as [E _].
    rewrite <- !app_assoc in E. exfalso. by apply (proj1 (includes_false _ _) Hn l r).
Qed.

Lemma consumeChar_emits (f : framer) (c : ascii) (f' : framer) (m : text) :
  inv f -> consumeChar f c = (f', Some m) ->
  m = messageBuffer f ++ [c] /\ state f = RECEIVING /\ f' = fresh /\ message_shape m.
Proof.
  destruct f as [[|] b]; unfold inv; simpl; intros Hinv E; split_consume;
    repeat split; try done; destruct Hinv; by apply emitted_shape.
Qed.

Lemma run_inv (f : framer) (s : text) :
  inv f -> inv (fst (run f s)) /\ Forall message_shape (snd (run f s)).
Proof.
  revert f; induction s as [|c s IH]; intros f Hf; simpl; [done|].
  destruct (consumeChar f c) as [f1 o] eqn:E1.
  assert (Hf1 : inv f1) by (pose proof (consumeChar_inv f c Hf); by rewrite E1 in *).
  destruct (IH f1 Hf1) as [IH1 IH2]. destruct (run f1 s) as [f2 os]. simpl in *.
  split; [done|]. apply Forall_app; split; [|done].
  destruct o as [m|]; simpl; [|done]. constructor; [|done].
  by apply (consumeChar_emits f c f1 m Hf E1).
Qed.

Lemma fresh_inv : inv fresh.
Proof. reflexivity. Qed.

(** *** Runs without a delimiter *)

Lemma run_receiving_plain (b t : text) :
  includes END_ (b ++ t) = false -> (Z.of_nat (length (b ++ t)) <= ceiling)%Z ->
  run (mkFramer RECEIVING b) t = (mkFramer RECEIVING (b ++ t), []).
Proof.
  revert b; induction t as [|c t IH]; intros b Hn Hl; simpl.
  - by rewrite app_nil_r.
  - replace (b ++ c :: t) with ((b ++ [c]) ++ t) in * by (by rewrite <- app_assoc).
    unfold consumeChar; simpl.
    rewrite (includes_app_false_l _ _ _ Hn).
    cbn [messageBuffer].
    destruct (Z.ltb_spec ceiling (Z.of_nat (length (b ++ [c])))) as [Hc|_].
    { rewrite !length_app in Hl. rewrite !length_app in Hc. lia. }
    by rewrite (IH _ Hn).
Qed.

Lemma run_idle_plain (b t : text) :
  includes START (b ++ t) = false -> (Z.of_nat (length (b ++ t)) <= ceiling)%Z ->
  run (mkFramer IDLE b) t = (mkFramer IDLE (b ++ t), []).
Proof.
  revert b; induction t as [|c t IH]; intros b Hn Hl; simpl.
  - by rewrite app_nil_r.
  - replace (b ++ c :: t) with ((b ++ [c]) ++ t) in * by (by rewrite <- app_assoc).
    unfold consumeChar; simpl.
    rewrite (includes_app_false_l _ _ _ Hn).
    cbn [messageBuffer].
    destruct (Z.ltb_spec ceiling (Z.of_nat (length (b ++ [c])))) as [Hc|_].
    { rewrite !length_app in Hl. rewrite !length_app in Hc. lia. }
    by rewrite (IH _ Hn).
Qed.

Lemma run_fresh_start : run fresh START = (mkFramer RECEIVING START, []).
Proof. reflexivity. Qed.

(** A complete message of at most 100,001 characters, fed to an IDLE framer
    with an empty buffer, is emitted whole and the framer is fresh again. *)
Lemma frame_message (m : text) :
  message_shape m -> (Z.of_nat (length m) <= ceiling + 1)%Z ->
  run fresh m = (fresh, [m]).
Proof.
  intros (Hp & [l Hl] & Hu) Hlen.
  apply prefixb_spec in Hp as [t Ht].
  destruct t as [|x t'] using rev_ind.
  { exfalso. rewrite app_nil_r in Ht. rewrite Ht in Hl.
    assert (length START = length (l ++ END_)) as E by (by rewrite Hl).
    rewrite length_app in E.
    change (length START) with 6 in E. change (length END_) with 7 in E. lia. }
  rename t' into u.
  assert (Hn : includes END_ (START ++ u) = false).
  { apply includes_false. intros l' r' E.
    assert (r' ++ [x] = []) as Hr.
    { apply (Hu l'). rewrite Ht, app_assoc, E. by rewrite <- !app_assoc. }
    by destruct r'. }
  rewrite Ht, app_assoc, run_app, run_app, run_fresh_start. simpl fst.
  rewrite (run_receiving_plain _ _ Hn).
  2:{ rewrite Ht, !length_app in Hlen. rewrite length_app. simpl in *. lia. }
  assert (He : includes END_ ((START ++ u) ++ [x]) = true).
  { apply includes_spec. exists l, []. rewrite app_nil_r, <- Hl, Ht. by rewrite app_assoc. }
  cbn -[START END_ includes]. unfold consumeChar. cbn -[START END_ includes].
  rewrite He. cbn -[START END_ includes]. by destruct (ceiling <? _)%Z.
Qed.

(** A complete message longer than 100,001 characters, fed to a fresh
    framer: its first 100,001 characters take the RECEIVING buffer past
    the ceiling before [</SEND>] arrives, the framer is fresh again with
    nothing emitted, and the rest of the message is read as new input. *)
Lemma overflow_message (m : text) :
  message_shape m -> (ceiling + 1 < Z.of_nat (length m))%Z ->
  run fresh m = run fresh (drop (Z.to_nat (ceiling + 1)) m).
Proof.
  intros (Hp & _ & Hu) Hlen.
  apply prefixb_spec in Hp as [t Ht].
  assert (Hlt : (Z.of_nat (length t) > 99995)%Z).
  { rewrite Ht, length_app in Hlen. change (length START) with 6 in Hlen.
    unfold ceiling in Hlen. lia. }
  assert (Hsplit : exists u x v, t = u ++ [x] ++ v /\ Z.of_nat (length u) = 99994%Z /\ v <> []).
  { exists (take (Z.to_nat 99994) t).
    pose proof (take_drop (Z.to_nat 99994) t) as Htd.
    assert (Hld : length (drop (Z.to_nat 99994) t) = length t - Z.to_nat 99994) by apply length_drop.
    destruct (drop (Z.to_nat 99994) t) as [|x [|y v]] eqn:Ed.
    - simpl in Hld. lia.
    - simpl in Hld. lia.
    - exists x, (y :: v). split; [symmetry; exact Htd|]. split; [|done].
      rewrite length_take. lia. }
  destruct Hsplit as (u & x & v & -> & Hu_len & Hv).
  assert (Hn1 : includes END_ ((START ++ u) ++ [x]) = false).
  { apply includes_false. intros l' r' E.
    assert (r' ++ v = []) as Hr.
    { apply (Hu l'). rewrite Ht. rewrite !app_assoc, E. by rewrite <- !app_assoc. }
    apply Hv. by apply app_eq_nil in Hr as [_ ->]. }
  assert (Hn0 : includes END_ (START ++ u) = false)
    by (by apply (includes_app_false_l _ _ [x])).
  assert (Hm : m = ((START ++ u) ++ [x]) ++ v) by (rewrite Ht; by rewrite <- !app_assoc).
  assert (Hd : drop (Z.to_nat (ceiling + 1)) m = v).
  { rewrite Hm. replace (Z.to_nat (ceiling + 1)) with (length ((START ++ u) ++ [x])).
    - apply drop_app_length.
    - rewrite !length_app. change (length START) with 6. simpl. unfold ceiling. lia. }
  rewrite Hd, Hm, !run_app, run_fresh_start. cbv beta iota.
  rewrite (run_receiving_plain _ _ Hn0).
  2:{ rewrite length_app. change (length START) with 6. unfold ceiling. lia. }
  cbv beta iota. cbn [run]. unfold consumeChar. cbn [state messageBuffer is_idle is_receiving andb].
  rewrite Hn1. cbn [messageBuffer].
  replace (ceiling <? Z.of_nat (length ((START ++ u) ++ [x])))%Z with true.
  2:{ symmetry. apply Z.ltb_lt. rewrite !length_app. change (length START) with 6.
      simpl. unfold ceiling. lia. }
  cbv beta iota. cbn [opt_list app]. fold fresh. by destruct (run fresh v).
Qed.

Lemma message_shapeb_sound (m : text) : message_shapeb m = true -> message_shape m.
Proof.
  unfold message_shapeb. rewrite <- !rev_alt, !andb_true_iff, negb_true_iff.
  intros [[Hp Hs] Hn]. split; [done|split].
  - apply prefixb_spec in Hs as [r Hr]. exists (rev r).
    rewrite <- (rev_involutive m), Hr, rev_app_distr, rev_involutive. done.
  - intros l r E. destruct r as [|x r]; [done|]. exfalso.
    rewrite E, app_assoc, removelast_app in Hn by done.
    rewrite <- app_assoc in Hn.
    pose proof (proj1 (includes_false _ _) Hn l (removelast (x :: r))) as H. done.
Qed.

(** *** The input behind the buffer *)

(** The buffer is always a suffix of the input consumed so far, and every
    emitted message is a suffix of the input at the moment it is emitted. *)
Lemma consumeChar_history (f : framer) (c : ascii) (h : text) :
  inv f -> (exists p, h = p ++ messageBuffer f) ->
  (exists p, h ++ [c] = p ++ messageBuffer (fst (consumeChar f c))) /\
  (forall m, snd (consumeChar f c) = Some m -> exists p, h ++ [c] = p ++ m).
Proof.
  destruct f as [[|] b]; unfold inv; cbn -[START END_ includes prefixb];
    intros Hinv [p ->]; unfold consumeChar; cbn -[START END_ includes prefixb].
  - destruct (includes START (b ++ [c])) eqn:Hs; cbn -[START END_ includes prefixb].
    + destruct (includes_snoc_suffix _ _ _ Hs Hinv) as [l Hl].
      split; [|done]. exists (p ++ l). by rewrite <- app_assoc, Hl, app_assoc.
    + destruct (_ <? _)%Z; cbn; split; try done.
      * exists (p ++ b ++ [c]). by rewrite app_nil_r, app_assoc.
      * exists p. by rewrite app_assoc.
  - destruct (includes END_ (b ++ [c])) eqn:He; cbn -[START END_ includes prefixb].
    + split.
      * exists (p ++ b ++ [c]). by rewrite app_nil_r, app_assoc.
      * intros m [= <-]. exists p. by rewrite app_assoc.
    + destruct (_ <? _)%Z; cbn; split; try done.
      * exists (p ++ b ++ [c]). by rewrite app_nil_r, app_assoc.
      * exists p. by rewrite app_assoc.
Qed.

Lemma run_history (f : framer) (h s : text) :
  inv f -> (exists p, h = p ++ messageBuffer f) ->
  forall m, m ∈ snd (run f s) -> exists p q, h ++ s = p ++ m ++ q.
Proof.
  revert f h; induction s as [|c s IH]; intros f h Hf Hh m Hm; simpl in *.
  { by apply elem_of_nil in Hm. }
  pose proof (consumeChar_history f c h Hf Hh) as [H1 H2].
  pose proof (consumeChar_inv f c Hf) as Hf1.
  destruct (consumeChar f c) as [f1 o] eqn:E1. simpl in *.
  destruct (run f1 s) as [f2 os] eqn:E2. simpl in Hm.
  apply elem_of_app in Hm as [Hm|Hm].
  - destruct o as [m'|]; simpl in Hm; [|by apply elem_of_nil in Hm].
    apply list_elem_of_singleton in Hm as ->.
    destruct (H2 m' eq_refl) as [p Hp]. exists p, s.
    replace (h ++ c :: s) with ((h ++ [c]) ++ s) by (by rewrite <- app_assoc).
    by rewrite Hp, <- app_assoc.
  - destruct (IH f1 (h ++ [c]) Hf1 H1 m) as (p & q & Hpq).
    { by rewrite E2. }
    exists p, q. rewrite <- Hpq. by rewrite <- app_assoc.
Qed.

(** *** Events *)

Lemma run_ev_run {R E} (d : text -> R + E) (f : framer) (s : text) :
  run_ev d f s = (fst (run f s), map (handleCompleteMessage d) (snd (run f s))).
Proof.
  revert f; induction s as [|c s IH]; intros f; simpl; [done|].
  unfold consumeChar_ev. destruct (consumeChar f c) as [f1 o].
  rewrite IH. destruct (run f1 s) as [f2 os]. simpl.
  by rewrite map_app.
Qed.

(** *** Bounds *)

(** One character: the kept buffer never exceeds the ceiling, and an
    emitted message is the old buffer plus that character. *)
Lemma consumeChar_bound (f : framer) (c : ascii) :
  (Z.of_nat (length (messageBuffer (fst (consumeChar f c)))) <= ceiling)%Z /\
  (forall m, snd (consumeChar f c) = Some m -> m = messageBuffer f ++ [c]).
Proof.
  unfold consumeChar. cbn -[START END_ includes ceiling].
  destruct (is_idle (state f) && includes START (messageBuffer f ++ [c])).
  { split; [|done]. cbn. unfold ceiling. lia. }
  destruct (is_receiving (state f) && includes END_ (messageBuffer f ++ [c]));
    cbn -[ceiling];
    destruct (Z.ltb_spec ceiling (Z.of_nat (length (messageBuffer f ++ [c])))) as [Hl|Hl];
    cbn -[ceiling]; split; try done; try (unfold ceiling; lia);
    try (intros m [= <-]; done).
Qed.

Lemma run_bound (f : framer) (s : text) :
  (Z.of_nat (length (messageBuffer f)) <= ceiling)%Z ->
  (Z.of_nat (length (messageBuffer (fst (run f s)))) <= ceiling)%Z /\
  Forall (fun m => (Z.of_nat (length m) <= ceiling + 1)%Z) (snd (run f s)).
Proof.
  revert f; induction s as [|c s IH]; intros f Hf; simpl; [done|].
  destruct (consumeChar_bound f c) as [H1 H2].
  destruct (consumeChar f c) as [f1 o] eqn:E. simpl in H1, H2.
  destruct (IH f1 H1) as [IH1 IH2].
  destruct (run f1 s) as [f2 os]. simpl in *. split; [done|].
  apply Forall_app. split; [|done].
  destruct o as [m|]; simpl; [|done]. constructor; [|done].
  rewrite (H2 m eq_refl), length_app. simpl. lia.
Qed.

(** ** Claims about the framer *)

(** C10: after every character the framer satisfies [inv]: RECEIVING
    buffers start with [<SEND>] and have no [</SEND>], IDLE buffers have no
    [<SEND>]; every emitted message starts with [<SEND>], ends with
    [</SEND>] and contains [</SEND>] only there. *)
Theorem framer_invariant (s : text) :
  inv (fst (run fresh s)) /\ Forall message_shape (snd (run fresh s)).
Proof. apply run_inv, fresh_inv. Qed.

(** C4 (amended): a complete message ([<SEND>] ... first [</SEND>]) split
    into chunks anywhere.  If it has at most 100,001 characters, a fresh
    framer emits it exactly once and whole, and ends fresh again.  If it is
    longer, the buffer passes the ceiling at its 100,001st character, before
    [</SEND>]: the framer then behaves exactly as a fresh framer fed only
    the rest of the text, and the message itself is never emitted. *)
Theorem chunked_message_framed (chunks : list text) :
  message_shape (concat chunks) ->
  ((Z.of_nat (length (concat chunks)) <= ceiling + 1)%Z ->
     feed fresh chunks = (fresh, [concat chunks])) /\
  ((ceiling + 1 < Z.of_nat (length (concat chunks)))%Z ->
     feed fresh chunks = run fresh (drop (Z.to_nat (ceiling + 1)) (concat chunks)) /\
     concat chunks ∉ snd (feed fresh chunks)).
Proof.
  intros Hs. rewrite feed_run. split.
  - intros Hl. by apply frame_message.
  - intros Hl. split; [by apply overflow_message|].
    intros Hin.
    destruct (run_bound fresh (concat chunks)) as [_ Hb]; [simpl; unfold ceiling; lia|].
    rewrite Forall_forall in Hb. specialize (Hb _ Hin). lia.
Qed.

Lemma chunked_message_framed_witness :
  message_shape (concat [lit "<SE"; lit "ND><R>HbA1c|5.4</R></SE"; lit "ND>"]) /\
  feed fresh [lit "<SE"; lit "ND><R>HbA1c|5.4</R></SE"; lit "ND>"] =
  (fresh, [lit "<SEND><R>HbA1c|5.4</R></SEND>"]) /\
  message_shape (concat [long_message]) /\
  feed fresh [long_message] = run fresh END_.
Proof.
  assert (H : message_shape (concat [lit "<SE"; lit "ND><R>HbA1c|5.4</R></SE"; lit "ND>"]))
    by (apply message_shapeb_sound; reflexivity).
  assert (H2 : message_shape (concat [long_message]))
    by (apply message_shapeb_sound; vm_compute; reflexivity).
  split; [exact H|]. split.
  { apply (proj1 (chunked_message_framed [lit "<SE"; lit "ND><R>HbA1c|5.4</R></SE"; lit "ND>"] H)).
    vm_compute. discriminate. }
  split; [exact H2|].
  refine (eq_trans (proj1 (proj2 (chunked_message_framed [long_message] H2) _)) _).
  - apply Z.ltb_lt. vm_compute. reflexivity.
  - apply (f_equal (run fresh)). vm_compute. reflexivity.
Defined.

(** C4 counterexample: a complete message of 100,008 characters, fed in one
    chunk, yields no message: the buffer passes the ceiling before
    [</SEND>] arrives. *)
Lemma long_message_dropped :
  message_shape long_message /\
  feed fresh [long_message] = (mkFramer IDLE END_, []).
Proof.
  split; [apply message_shapeb_sound; vm_compute; reflexivity|].
  assert (H1 : run (mkFramer RECEIVING START) (repeat "a"%char (Z.to_nat 99994)) =
               (mkFramer RECEIVING (START ++ repeat "a"%char (Z.to_nat 99994)), [])).
  { apply run_receiving_plain.
    - vm_compute. reflexivity.
    - apply Z.leb_le. vm_compute. reflexivity. }
  rewrite feed_run. change (concat [long_message]) with (long_message ++ []).
  rewrite app_nil_r. unfold long_message.
  rewrite run_app, run_fresh_start. cbv beta iota.
  rewrite run_app, H1. cbv beta iota.
  vm_compute. reflexivity.
Qed.

(** C5 (amended): when appending a character takes the buffer past
    100,000 characters, the framer enters RECEIVING with buffer [<SEND>] if
    that character completes [<SEND>] in IDLE; otherwise it becomes fresh
    (IDLE, empty buffer), and emits a message only if the character
    completes [</SEND>] in RECEIVING, namely the whole buffer.  A fresh
    framer frames any later complete message of at most 100,001
    characters. *)
Theorem overflow_resets (f : framer) (c : ascii) :
  (ceiling < Z.of_nat (length (messageBuffer f ++ [c])))%Z ->
  consumeChar f c =
    (if is_idle (state f) && includes START (messageBuffer f ++ [c])
     then (mkFramer RECEIVING START, None)
     else (fresh, if is_receiving (state f) && includes END_ (messageBuffer f ++ [c])
                  then Some (messageBuffer f ++ [c]) else None)) /\
  (forall m, message_shape m -> (Z.of_nat (length m) <= ceiling + 1)%Z ->
     run fresh m = (fresh, [m])).
Proof.
  intros Hl. split; [|apply frame_message].
  destruct f as [st b]; cbn -[START END_ includes] in *. unfold consumeChar.
  cbn -[START END_ includes].
  destruct st; cbn -[START END_ includes].
  - destruct (includes START (b ++ [c])); [done|].
    cbn -[START END_ includes]. by rewrite (proj2 (Z.ltb_lt _ _) Hl).
  - destruct (includes END_ (b ++ [c])); cbn -[START END_ includes];
      [done | by rewrite (proj2 (Z.ltb_lt _ _) Hl)].
Qed.

Lemma overflow_resets_witness :
  (ceiling < Z.of_nat (length ((START ++ repeat "a"%char (Z.to_nat 99994)) ++ ["a"%char])))%Z /\
  consumeChar (mkFramer RECEIVING (START ++ repeat "a"%char (Z.to_nat 99994))) "a"%char
  = (fresh, None) /\
  (ceiling < Z.of_nat (length (idle_prefix ++ [">"%char])))%Z /\
  consumeChar (mkFramer IDLE idle_prefix) ">"%char = (mkFramer RECEIVING START, None).
Proof.
  assert (Hl : (ceiling < Z.of_nat (length ((START ++ repeat "a"%char (Z.to_nat 99994)) ++ ["a"%char])))%Z)
    by (apply Z.ltb_lt; vm_compute; reflexivity).
  assert (Hi : (ceiling < Z.of_nat (length (idle_prefix ++ [">"%char])))%Z)
    by (apply Z.ltb_lt; vm_compute; reflexivity).
  split; [exact Hl|]. split.
  { refine (eq_trans (proj1 (overflow_resets (mkFramer RECEIVING (START ++ repeat "a"%char (Z.to_nat 99994))) "a"%char Hl)) _).
    vm_compute. reflexivity. }
  split; [exact Hi|].
  refine (eq_trans (proj1 (overflow_resets (mkFramer IDLE idle_prefix) ">"%char Hi)) _).
  vm_compute. reflexivity.
Defined.

(** C5 counterexample: from a fresh framer, 100,000 characters of noise
    ending in [<SEND] and then [>] take the buffer past the ceiling, yet the
    framer enters RECEIVING; and a RECEIVING buffer of 100,000 characters
    completed by [>] is emitted as a message. *)
Lemma overflow_not_reset :
  let f := fst (run fresh idle_prefix) in
  (ceiling < Z.of_nat (length (messageBuffer f ++ [">"%char])))%Z /\
  consumeChar f ">"%char = (mkFramer RECEIVING START, None) /\
  let g := fst (run fresh (START ++ receiving_prefix)) in
  (ceiling < Z.of_nat (length (messageBuffer g ++ [">"%char])))%Z /\
  consumeChar g ">"%char = (fresh, Some (START ++ receiving_prefix ++ [">"%char])).
Proof.
  assert (Hi : run fresh idle_prefix = (mkFramer IDLE idle_prefix, [])).
  { apply (run_idle_plain [] idle_prefix).
    - vm_compute. reflexivity.
    - apply Z.leb_le. vm_compute. reflexivity. }
  assert (Hr : run fresh (START ++ receiving_prefix) =
               (mkFramer RECEIVING (START ++ receiving_prefix), [])).
  { rewrite run_app, run_fresh_start. cbv beta iota.
    rewrite run_receiving_plain.
    - done.
    - vm_compute. reflexivity.
    - apply Z.leb_le. vm_compute. reflexivity. }
  cbv zeta. rewrite Hi, Hr. cbn [fst messageBuffer].
  split; [apply Z.ltb_lt; vm_compute; reflexivity|].
  split; [vm_compute; reflexivity|].
  split; [apply Z.ltb_lt; vm_compute; reflexivity|].
  assert (He : includes END_ ((START ++ receiving_prefix) ++ [">"%char]) = true)
    by (vm_compute; reflexivity).
  unfold consumeChar. cbn [state messageBuffer is_idle is_receiving andb].
  rewrite He. cbv beta iota. cbn [messageBuffer].
  destruct (_ <? _)%Z; by rewrite <- app_assoc.
Qed.

(** C7: when an IDLE framer sees [<SEND>] its buffer becomes exactly
    [<SEND>]; hence, for input [junk ++ s] whose first [<SEND>] does not
    start inside [junk], every emitted message lies within [s]. *)
Theorem leading_bytes_excluded :
  (forall (b : text) (c : ascii), includes START (b ++ [c]) = true ->
     consumeChar (mkFramer IDLE b) c = (mkFramer RECEIVING START, None)) /\
  (forall junk s : text,
     (forall l r, junk ++ s = l ++ START ++ r -> length junk <= length l) ->
     forall m, m ∈ snd (run fresh (junk ++ s)) -> exists p q, s = p ++ m ++ q).
Proof.
  split.
  - intros b c H. unfold consumeChar. cbn [state messageBuffer is_idle andb].
    by rewrite H.
  - intros junk s Hfirst m Hm.
    destruct (run_history fresh [] (junk ++ s) fresh_inv (ex_intro _ [] eq_refl) m Hm)
      as (p & q & Hpq).
    pose proof (proj2 (run_inv fresh (junk ++ s) fresh_inv)) as Hall.
    rewrite Forall_forall in Hall. destruct (Hall m Hm) as [Hp _].
    apply prefixb_spec in Hp as [t ->]. rewrite app_nil_l in Hpq.
    assert (Hlen : length junk <= length p).
    { apply (Hfirst p (t ++ q)). rewrite Hpq. by rewrite <- !app_assoc. }
    apply app_eq_app in Hpq as [l [[Hj Hs] | [Hp Hs]]].
    + subst junk. rewrite length_app in Hlen. destruct l; [|simpl in Hlen; lia].
      exists [], q. by rewrite Hs.
    + exists l, q. done.
Qed.

(** C8: the framing state never depends on the decoder: a run with any
    decoder leaves the framer exactly where the bare framer run leaves it,
    with one event per completed message; when decoding a completed message
    throws, the framer is already fresh and the failure is one error event. *)
Theorem decode_failure_isolated {R E : Type} (d : text -> R + E) (f : framer) (s : text) :
  run_ev d f s = (fst (run f s), map (handleCompleteMessage d) (snd (run f s))) /\
  (forall (c : ascii) (f' : framer) (m : text) (e : E),
     inv f -> consumeChar f c = (f', Some m) -> d m = inr e ->
     f' = fresh /\ consumeChar_ev d f c = (fresh, [EvError e])).
Proof.
  split; [apply run_ev_run|].
  intros c f' m e Hf Hc Hd.
  destruct (consumeChar_emits f c f' m Hf Hc) as (_ & _ & -> & _).
  split; [done|]. unfold consumeChar_ev. rewrite Hc. simpl.
  unfold handleCompleteMessage. by rewrite Hd.
Qed.

(** ** Number comparisons *)

Lemma num57_eq : num 57 (-1) = S754_finite false 6417629469002957 (-50).
Proof. vm_compute. reflexivity. Qed.

Lemma num65_eq : num 65 (-1) = S754_finite false 7318349394477056 (-50).
Proof. vm_compute. reflexivity. Qed.

Lemma SFcompare_swap (x y : double) :
  SFcompare y x = option_map CompOpp (SFcompare x y).
Proof.
  destruct x as [sx|sx| |sx mx ex], y as [sy|sy| |sy my ey];
    try destruct sx; try destruct sy; simpl; try reflexivity;
    rewrite (Z.compare_antisym ex ey); destruct (ex ?= ey)%Z; simpl; try reflexivity;
    change (Pos.compare_cont Eq my mx) with (Pos.compare my mx);
    change (Pos.compare_cont Eq mx my) with (Pos.compare mx my);
    rewrite (Pos.compare_antisym mx my); try reflexivity.
Qed.

Lemma SFcompare_defined (x y : double) :
  is_nan x = false -> is_nan y = false -> exists c, SFcompare x y = Some c.
Proof.
  destruct x as [sx|sx| |sx mx ex], y as [sy|sy| |sy my ey]; simpl; try discriminate;
    eauto.
Qed.

(** JS [x <= y] is [!(y < x)] away from NaN. *)
Lemma SFleb_ltb (x y : double) :
  is_nan x = false -> is_nan y = false -> SFleb x y = negb (SFltb y x).
Proof.
  intros Hx Hy. destruct (SFcompare_defined x y Hx Hy) as [c Hc].
  unfold SFleb, SFltb. rewrite (SFcompare_swap x y), Hc. by destruct c.
Qed.

Lemma compare_cont_lt_trans (m a b : positive) :
  (a < b)%positive -> Pos.compare_cont Eq m a = Lt -> Pos.compare_cont Eq m b = Lt.
Proof.
  intros Hab H. change (Pos.compare m b = Lt). change (Pos.compare m a = Lt) in H.
  apply Pos.compare_lt_iff in H. apply Pos.compare_lt_iff. exact (Pos.lt_trans _ _ _ H Hab).
Qed.
Lemma lt57_lt65 (v : double) :
  SFltb v (num 57 (-1)) = true -> SFltb v (num 65 (-1)) = true.
Proof.
  rewrite num57_eq, num65_eq. unfold SFltb.
  destruct v as [s|s| |s m e]; try destruct s; cbn [SFcompare].
  all: try (intros; reflexivity).
  all: try (intros; discriminate).
  destruct (e ?= -50)%Z; try (intros; reflexivity); try (intros; discriminate).
  intros H.
  destruct (Pos.compare_cont Eq m 6417629469002957) eqn:E; try discriminate H.
  rewrite (compare_cont_lt_trans m 6417629469002957 7318349394477056); [reflexivity | reflexivity | exact E].
Qed.

Lemma num57_not_nan : is_nan (num 57 (-1)) = false.
Proof. by rewrite num57_eq. Qed.

Lemma num65_not_nan : is_nan (num 65 (-1)) = false.
Proof. by rewrite num65_eq. Qed.

(** The three ranges of [classify], away from NaN. *)
Lemma classify_ranges (v : double) :
  is_nan v = false ->
  (classify v = lit "Normal" <-> SFltb v (num 57 (-1)) = true) /\
  (classify v = lit "Prediabetes" <->
     SFleb (num 57 (-1)) v = true /\ SFltb v (num 65 (-1)) = true) /\
  (classify v = lit "Diabetes" <-> SFleb (num 65 (-1)) v = true).
Proof.
  intros Hv.
  rewrite (SFleb_ltb _ _ num57_not_nan Hv), (SFleb_ltb _ _ num65_not_nan Hv).
  pose proof (lt57_lt65 v) as Hmono.
  unfold classify, js_lt.
  destruct (SFltb v (num 57 (-1))) eqn:E1, (SFltb v (num 65 (-1))) eqn:E2;
    simpl; repeat split; try done; intros; try discriminate;
    try (destruct H; discriminate).
  by specialize (Hmono eq_refl).
Qed.

(** NaN falls through both comparisons. *)
Lemma classify_nan : classify NaN = lit "Diabetes".
Proof. unfold classify, js_lt. rewrite num57_eq, num65_eq. reflexivity. Qed.

(** ** Decoder lemmas *)

(** *** [interpret] *)

Lemma interpret_lookup_ne (rs : gmap text result_entry) (k : text) :
  k <> HbA1c -> interpret rs !! k = rs !! k.
Proof.
  intros Hk. unfold interpret. destruct (rs !! HbA1c); [|done].
  by rewrite lookup_insert_ne.
Qed.

Lemma interpret_lookup_hba1c (rs : gmap text result_entry) :
  interpret rs !! HbA1c =
    option_map (fun e => mkEntry (value e) (unit e) (Some (classify (value e)))) (rs !! HbA1c).
Proof.
  unfold interpret. destruct (rs !! HbA1c) eqn:E; simpl; [|done].
  by rewrite lookup_insert_eq.
Qed.

(** Away from [HbA1c], [interpret] is the identity on entries; at [HbA1c]
    it keeps value and unit. *)
Lemma interpret_lookup_Some (rs : gmap text result_entry) (k : text) (e : result_entry) :
  interpret rs !! k = Some e ->
  exists e0, rs !! k = Some e0 /\ value e = value e0 /\ unit e = unit e0 /\
    (k = HbA1c -> interpretation e = Some (classify (value e0))) /\
    (k <> HbA1c -> e = e0).
Proof.
  destruct (decide (k = HbA1c)) as [->|Hk].
  - rewrite interpret_lookup_hba1c. destruct (rs !! HbA1c) as [e0|] eqn:E; [|done].
    simpl. intros [= <-]. exists e0. simpl. repeat split; done.
  - rewrite interpret_lookup_ne by done. intros He. exists e. repeat split; done.
Qed.

Lemma interpret_lookup_None (rs : gmap text result_entry) (k : text) :
  interpret rs !! k = None <-> rs !! k = None.
Proof.
  destruct (decide (k = HbA1c)) as [->|Hk].
  - rewrite interpret_lookup_hba1c. by destruct (rs !! HbA1c).
  - by rewrite interpret_lookup_ne.
Qed.

(** *** The results fold *)

(** What [r_step] does with one line: the key and value halves, both
    non-empty, give an entry. *)
Lemma r_step_cases (acc : gmap text result_entry) (line : text) :
  (exists k v rest, split_on "|"%char line = k :: v :: rest /\ k <> [] /\ v <> [] /\
     r_step acc line = <[k := mkEntry (parseFloat v) unit_pct None]> acc) \/
  r_step acc line = acc.
Proof.
  unfold r_step. destruct (split_on "|"%char line) as [|k rest]; [by right|].
  destruct rest as [|v rest]; simpl; [by right|].
  destruct k as [|a k]; simpl; [by right|].
  destruct v as [|b v]; simpl; [by right|].
  left. exists (a :: k), (b :: v), rest. repeat split; done.
Qed.

Lemma r_step_other (acc : gmap text result_entry) (line k : text) :
  (forall v rest, split_on "|"%char line = k :: v :: rest -> v = []) ->
  r_step acc line !! k = acc !! k.
Proof.
  intros H. destruct (r_step_cases acc line) as [(k' & v & rest & Hs & Hk & Hv & ->)| ->]; [|done].
  destruct (decide (k' = k)) as [->|Hne].
  - exfalso. apply Hv. by apply (H v rest).
  - by rewrite lookup_insert_ne.
Qed.

(** Every entry of the fold comes from one of its lines, or from [acc]. *)
Lemma fold_r_step_entries (lines : list text) (acc : gmap text result_entry) (k : text) (e : result_entry) :
  fold_left r_step lines acc !! k = Some e ->
  acc !! k = Some e \/
  exists line v rest, In line lines /\ split_on "|"%char line = k :: v :: rest /\
    k <> [] /\ v <> [] /\ e = mkEntry (parseFloat v) unit_pct None.
Proof.
  revert acc; induction lines as [|line lines IH]; intros acc H; simpl in H; [by left|].
  destruct (IH _ H) as [Hacc|(l & v & rest & Hin & Hs & Hk & Hv & He)].
  - destruct (r_step_cases acc line) as [(k' & v & rest & Hs & Hk & Hv & E)| E];
      rewrite E in Hacc; [|by left].
    destruct (decide (k' = k)) as [->|Hne].
    + rewrite lookup_insert_eq in Hacc. injection Hacc as <-.
      right. exists line, v, rest. simpl. auto.
    + rewrite lookup_insert_ne in Hacc by done. by left.
  - right. exists l, v, rest. simpl. auto.
Qed.

Lemma results_of_entries (body k : text) (e : result_entry) :
  results_of body !! k = Some e ->
  exists line v rest, In line (r_lines body) /\ split_on "|"%char line = k :: v :: rest /\
    k <> [] /\ v <> [] /\ e = mkEntry (parseFloat v) unit_pct None.
Proof.
  unfold results_of. intros H.
  destruct (fold_r_step_entries _ _ _ _ H) as [H0|?]; [|done].
  by rewrite lookup_empty in H0.
Qed.

(** Lines that give no new value to [k] leave its entry alone. *)
Lemma fold_r_step_keep (post : list text) (k : text) (m : gmap text result_entry) :
  (forall l v' r', In l post -> split_on "|"%char l = k :: v' :: r' -> v' = []) ->
  fold_left r_step post m !! k = m !! k.
Proof.
  revert m; induction post as [|l post IH]; intros m H; simpl; [done|].
  rewrite IH.
  - apply r_step_other. intros v' r' Hs. apply (H l v' r'); [left|]; done.
  - intros l' v' r' Hin. apply H. by right.
Qed.

(** A line with both halves gives its entry, unless a later line with the
    same key and a non-empty value replaces it. *)
Lemma fold_r_step_last (pre post : list text) (line k v : text) (rest : list text)
      (acc : gmap text result_entry) :
  split_on "|"%char line = k :: v :: rest -> k <> [] -> v <> [] ->
  (forall l v' r', In l post -> split_on "|"%char l = k :: v' :: r' -> v' = []) ->
  fold_left r_step (pre ++ line :: post) acc !! k = Some (mkEntry (parseFloat v) unit_pct None).
Proof.
  intros Hs Hk Hv Hpost. rewrite fold_left_app. simpl.
  rewrite fold_r_step_keep by done.
  unfold r_step at 1. rewrite Hs. simpl.
  destruct k; [done|]. destruct v; [done|]. simpl.
  by rewrite lookup_insert_eq.
Qed.

(** *** Sections that do not occur *)

Lemma includes_cons (p s : text) (c : ascii) :
  includes p (c :: s) = prefixb p (c :: s) || includes p s.
Proof. reflexivity. Qed.

Lemma includes_nil (p : text) : includes p [] = prefixb p [].
Proof. unfold includes. by rewrite orb_false_r. Qed.

Lemma prefixb_cons (a : ascii) (p : text) (c : ascii) (s : text) :
  prefixb (a :: p) (c :: s) = bool_decide (a = c) && prefixb p s.
Proof. reflexivity. Qed.

Lemma replace_crlf_cons2 (c d : ascii) (s : text) :
  replace_crlf (c :: d :: s) =
  if bool_decide (c = CR) && bool_decide (d = LF) then LF :: replace_crlf s
  else c :: replace_crlf (d :: s).
Proof. reflexivity. Qed.

(** An occurrence of a text without LF in the normalised text is one in the
    original: [\r\n] -> [\n] only produces LF characters. *)
Lemma prefixb_replace_crlf (p s : text) :
  LF ∉ p -> prefixb p (replace_crlf s) = true -> prefixb p s = true.
Proof.
  revert s; induction p as [|a p IH]; intros s Hp H; [done|].
  destruct s as [|c [|d s'']]; [done|done|].
  rewrite replace_crlf_cons2 in H.
  destruct (bool_decide (c = CR) && bool_decide (d = LF)).
  - rewrite prefixb_cons in H. apply andb_true_iff in H as [H _].
    apply bool_decide_eq_true in H. subst a. set_solver.
  - rewrite prefixb_cons in H |- *. apply andb_true_iff in H as [Ha H].
    rewrite Ha. simpl. apply IH; [set_solver|done].
Qed.

Lemma includes_replace_crlf (p s : text) :
  LF ∉ p -> includes p (replace_crlf s) = true -> includes p s = true.
Proof.
  intros Hp. induction s as [s IH] using (well_founded_induction (well_founded_ltof _ (@length ascii))).
  destruct s as [|c [|d s'']]; [done|done|].
  intros H. rewrite replace_crlf_cons2 in H.
  destruct (bool_decide (c = CR) && bool_decide (d = LF)) eqn:Ecd.
  - rewrite includes_cons, orb_true_iff in H. destruct H as [H|H].
    + destruct p as [|a p]; [by rewrite includes_cons|].
      rewrite prefixb_cons in H. apply andb_true_iff in H as [H _].
      apply bool_decide_eq_true in H. subst a. set_solver.
    + apply IH in H; [|unfold ltof; simpl; lia].
      rewrite !includes_cons, H. by rewrite !orb_true_r.
  - rewrite includes_cons, orb_true_iff in H. destruct H as [H|H].
    + rewrite includes_cons. apply orb_true_iff. left.
      apply (prefixb_replace_crlf p (c :: d :: s'') Hp). rewrite replace_crlf_cons2. by rewrite Ecd.
    + apply IH in H; [|unfold ltof; simpl; lia].
      rewrite includes_cons, H. by rewrite orb_true_r.
Qed.

Lemma prefixb_replace_cr (p s : text) :
  LF ∉ p -> prefixb p (replace_cr s) = true -> prefixb p s = true.
Proof.
  revert s; induction p as [|a p IH]; intros s Hp H; [done|].
  destruct s as [|c s]; [done|].
  unfold replace_cr in H. cbn [map] in H. rewrite prefixb_cons in H |- *.
  apply andb_true_iff in H as [Ha H]. apply bool_decide_eq_true in Ha.
  case_bool_decide as Hc; [subst a; set_solver|].
  subst a. rewrite bool_decide_true by done. simpl. apply IH; [set_solver|done].
Qed.

Lemma includes_replace_cr (p s : text) :
  LF ∉ p -> includes p (replace_cr s) = true -> includes p s = true.
Proof.
  intros Hp. induction s as [|c s IH]; intros H.
  - unfold replace_cr in H. done.
  - unfold replace_cr in H. cbn [map] in H. rewrite includes_cons, orb_true_iff in H.
    rewrite includes_cons, orb_true_iff. destruct H as [H|H].
    + left. apply (prefixb_replace_cr p (c :: s) Hp). exact H.
    + right. by apply IH.
Qed.

Lemma includes_clean (p raw : text) :
  LF ∉ p -> includes p raw = false -> includes p (clean_of raw) = false.
Proof.
  intros Hp H. destruct (includes p (clean_of raw)) eqn:E; [|done].
  apply includes_replace_cr, includes_replace_crlf in E; [congruence|done|done].
Qed.

Lemma search_absent {A} (p : text) (try : text -> option A) (s : text) :
  includes p s = false -> (forall t, prefixb p t = false -> try t = None) ->
  search try s = None.
Proof.
  intros Hs Ht. induction s as [|c s IH]; simpl.
  - rewrite Ht; [done|]. by rewrite includes_nil in Hs.
  - rewrite includes_cons in Hs. apply orb_false_iff in Hs as [H1 H2].
    rewrite Ht by done. by apply IH.
Qed.

Lemma match_M_absent (raw : text) :
  includes (lit "<M>") raw = false -> match_M (clean_of raw) = None.
Proof.
  intros H. apply (search_absent (lit "<M>")).
  - apply includes_clean; [vm_compute; set_solver|done].
  - intros t Ht. by rewrite Ht.
Qed.

Lemma match_ws_section_absent (open close raw : text) :
  LF ∉ open -> includes open raw = false -> match_ws_section open close (clean_of raw) = None.
Proof.
  intros Hlf H. apply (search_absent open).
  - by apply includes_clean.
  - intros t Ht. by rewrite Ht.
Qed.

(** *** Equality with the integer codes *)

Lemma SFeqb_finite (x : double) (s : bool) (m : positive) (e : Z) :
  SFeqb x (S754_finite s m e) = true -> x = S754_finite s m e.
Proof.
  unfold SFeqb. destruct x as [sx|sx| |sx mx ex]; try destruct sx; destruct s;
    cbn [SFcompare]; try discriminate.
  - destruct (Z.compare_spec ex e) as [-> | |]; try discriminate.
    destruct (Pos.compare_cont Eq mx m) eqn:E; try discriminate.
    intros _. change (Pos.compare mx m = Eq) in E. apply Pos.compare_eq in E. by subst.
  - destruct (Z.compare_spec ex e) as [-> | |]; try discriminate.
    destruct (Pos.compare_cont Eq mx m) eqn:E; try discriminate.
    intros _. change (Pos.compare mx m = Eq) in E. apply Pos.compare_eq in E. by subst.
Qed.

Lemma num0_eq : num 0 0 = S754_zero false.
Proof. reflexivity. Qed.

Lemma num1_eq : num 1 0 = S754_finite false 4503599627370496 (-52).
Proof. vm_compute. reflexivity. Qed.

Lemma num2_eq : num 2 0 = S754_finite false 4503599627370496 (-51).
Proof. vm_compute. reflexivity. Qed.

Lemma num3_eq : num 3 0 = S754_finite false 6755399441055744 (-51).
Proof. vm_compute. reflexivity. Qed.

(** [typeMap[code]] for a code equal to one of the keys. *)
Lemma sample_type_of_key (code : double) (k : Z) :
  (0 <= k <= 3)%Z -> SFeqb code (num k 0) = true ->
  nth_error typeMap (Z.to_nat k) = Some (sample_type_of code).
Proof.
  intros Hk H.
  assert (k = 0 \/ k = 1 \/ k = 2 \/ k = 3)%Z as [-> | [-> | [-> | ->]]] by lia.
  - unfold sample_type_of. by rewrite H.
  - rewrite num1_eq in H. apply SFeqb_finite in H. subst. vm_compute. reflexivity.
  - rewrite num2_eq in H. apply SFeqb_finite in H. subst. vm_compute. reflexivity.
  - rewrite num3_eq in H. apply SFeqb_finite in H. subst. vm_compute. reflexivity.
Qed.

Lemma sample_type_of_other (code : double) :
  (forall k, (0 <= k <= 3)%Z -> SFeqb code (num k 0) = false) ->
  sample_type_of code = lit "unknown".
Proof.
  intros H. unfold sample_type_of.
  rewrite (H 0%Z), (H 1%Z), (H 2%Z), (H 3%Z) by lia. reflexivity.
Qed.

Lemma lf_not_in_open (t : string) :
  t = "<M>"%string \/ t = "<I>"%string \/ t = "<R>"%string -> LF ∉ lit t.
Proof. intros [-> | [-> | ->]]; vm_compute; set_solver. Qed.

(** [results] of [parseProtocol], before and after the interpretation. *)
Lemma results_parseProtocol (now raw : text) :
  results (parseProtocol now raw) =
    interpret (match match_R (clean_of raw) with Some body => results_of body | None => ∅ end).
Proof. reflexivity. Qed.

Lemma results_uninterpreted (now raw k : text) (e : result_entry) :
  (match match_R (clean_of raw) with Some body => results_of body | None => ∅ end) !! k = Some e ->
  interpretation e = None.
Proof.
  destruct (match_R (clean_of raw)) as [body|].
  - intros H. apply results_of_entries in H as (? & ? & ? & _ & _ & _ & _ & ->). reflexivity.
  - by rewrite lookup_empty.
Qed.

Lemma is_nan_true (x : double) : is_nan x = true -> x = NaN.
Proof. by destruct x. Qed.

(** ** Claims on [parseProtocol] *)

(** C1: an [HbA1c] entry whose value is NaN is interpreted "Diabetes":
    both comparisons [v < 5.7] and [v < 6.5] are false, and the guard
    [if (result.results.HbA1c)] only tests that the entry exists.  When
    there is no [HbA1c] entry, no entry gets an interpretation. *)
Theorem hba1c_nan_interpretation (now raw : text) :
  (forall e, results (parseProtocol now raw) !! HbA1c = Some e -> is_nan (value e) = true ->
     interpretation e = Some (lit "Diabetes")) /\
  (results (parseProtocol now raw) !! HbA1c = None ->
     forall k e, results (parseProtocol now raw) !! k = Some e -> interpretation e = None).
Proof.
  rewrite results_parseProtocol. split.
  - intros e H Hnan.
    destruct (interpret_lookup_Some _ _ _ H) as (e0 & _ & Hv & _ & Hi & _).
    rewrite (Hi eq_refl), <- Hv, (is_nan_true _ Hnan). apply f_equal, classify_nan.
  - intros Hnone k e H.
    apply (proj1 (interpret_lookup_None _ _)) in Hnone.
    unfold interpret in H. rewrite Hnone in H.
    exact (results_uninterpreted now raw k e H).
Qed.

Lemma hba1c_nan_interpretation_witness :
  results (parseProtocol [] nan_hba1c_message) !! HbA1c =
    Some (mkEntry NaN unit_pct (Some (lit "Diabetes"))) /\
  interpretation (mkEntry NaN unit_pct (Some (lit "Diabetes"))) = Some (lit "Diabetes").
Proof.
  assert (H : results (parseProtocol [] nan_hba1c_message) !! HbA1c =
                Some (mkEntry NaN unit_pct (Some (lit "Diabetes")))) by (vm_compute; reflexivity).
  split; [exact H|].
  exact (proj1 (hba1c_nan_interpretation [] nan_hba1c_message) _ H eq_refl).
Defined.

(** C2: an [HbA1c] entry with a value v other than NaN gets exactly one of
    the three labels: Normal iff v < 5.7, Prediabetes iff 5.7 <= v < 6.5,
    Diabetes iff 6.5 <= v (comparisons of binary64 numbers, 5.7 and 6.5
    being the nearest doubles to the literals). *)
Theorem hba1c_interpretation (now raw : text) (e : result_entry) :
  results (parseProtocol now raw) !! HbA1c = Some e ->
  is_nan (value e) = false ->
  exists label, interpretation e = Some label /\
    (label = lit "Normal" \/ label = lit "Prediabetes" \/ label = lit "Diabetes") /\
    (label = lit "Normal" <-> SFltb (value e) (num 57 (-1)) = true) /\
    (label = lit "Prediabetes" <->
       SFleb (num 57 (-1)) (value e) = true /\ SFltb (value e) (num 65 (-1)) = true) /\
    (label = lit "Diabetes" <-> SFleb (num 65 (-1)) (value e) = true).
Proof.
  rewrite results_parseProtocol. intros H Hnan.
  destruct (interpret_lookup_Some _ _ _ H) as (e0 & _ & Hv & _ & Hi & _).
  exists (classify (value e)). rewrite (Hi eq_refl), <- Hv.
  split; [done|]. split; [|exact (classify_ranges _ Hnan)].
  unfold classify. destruct (js_lt (value e) (num 57 (-1))); [by left|].
  destruct (js_lt (value e) (num 65 (-1))); [by right; left|by right; right].
Qed.

(** At the lower bound: [HbA1c|5.7] is Prediabetes. *)
Lemma hba1c_interpretation_witness :
  results (parseProtocol [] boundary_message) !! HbA1c =
    Some (mkEntry (num 57 (-1)) unit_pct (Some (lit "Prediabetes"))) /\
  SFleb (num 57 (-1)) (num 57 (-1)) = true /\ SFltb (num 57 (-1)) (num 65 (-1)) = true.
Proof.
  assert (H : results (parseProtocol [] boundary_message) !! HbA1c =
                Some (mkEntry (num 57 (-1)) unit_pct (Some (lit "Prediabetes"))))
    by (vm_compute; reflexivity).
  split; [exact H|].
  destruct (hba1c_interpretation [] boundary_message _ H (eq_refl false))
    as (label & Hl & _ & _ & [HP _] & _).
  apply HP. simpl in Hl. injection Hl as <-. reflexivity.
Defined.

(** The examples of the specification. *)
Example hba1c_examples :
  classify (parseFloat (lit "5.6")) = lit "Normal" /\
  classify (parseFloat (lit "6.0")) = lit "Prediabetes" /\
  classify (parseFloat (lit "7.0")) = lit "Diabetes" /\
  classify (parseFloat (lit "5.7")) = lit "Prediabetes" /\
  classify (parseFloat (lit "6.5")) = lit "Diabetes".
Proof. vm_compute. repeat split; reflexivity. Qed.

(** C3 (as the code has it): the fifth field of the trimmed <I> group is
    converted with [Number()], so surrounding whitespace is ignored and a
    blank field is 0.  A code numerically equal to 0 (or -0), 1, 2, 3 is
    looked up in [typeMap]; any other number, NaN included, and an absent
    fifth field give "unknown"; a blank fifth field gives "whole_blood".
    Fields missing at the end of the record are absent ([None]). *)
Theorem sample_info_decoded (now raw g : text) :
  match_I (clean_of raw) = Some g ->
  exists s, sampleInfo (parseProtocol now raw) = Some s /\
    recordType s = nth_error (split_on "|"%char (trim g)) 0 /\
    analysisTime s = nth_error (split_on "|"%char (trim g)) 1 /\
    sampleId s = nth_error (split_on "|"%char (trim g)) 2 /\
    samplePosition s = nth_error (split_on "|"%char (trim g)) 3 /\
    sampleTypeCode s = js_number_opt (nth_error (split_on "|"%char (trim g)) 4) /\
    (forall k, (0 <= k <= 3)%Z -> SFeqb (sampleTypeCode s) (num k 0) = true ->
       nth_error typeMap (Z.to_nat k) = Some (sampleType s)) /\
    ((forall k, (0 <= k <= 3)%Z -> SFeqb (sampleTypeCode s) (num k 0) = false) ->
       sampleType s = lit "unknown") /\
    (nth_error (split_on "|"%char (trim g)) 4 = None -> sampleType s = lit "unknown") /\
    (forall f, nth_error (split_on "|"%char (trim g)) 4 = Some f -> trim f = [] ->
       sampleType s = lit "whole_blood").
Proof.
  intros Hg.
  change (sampleInfo (parseProtocol now raw)) with (option_map sample_of (match_I (clean_of raw))).
  rewrite Hg. eexists. split; [reflexivity|]. cbn [sampleTypeCode sampleType recordType
    analysisTime sampleId samplePosition sample_of].
  set (parts := split_on "|"%char (trim g)).
  split; [done|]. split; [done|]. split; [done|]. split; [done|]. split; [done|].
  split; [intros k Hk H; by apply sample_type_of_key|].
  split; [apply sample_type_of_other|].
  split.
  - intros ->. vm_compute. reflexivity.
  - intros f -> Hf. unfold js_number_opt, js_number. rewrite Hf. reflexivity.
Qed.

(** A record with two fields: the others are absent and the type unknown. *)
Lemma sample_info_decoded_witness :
  exists s, sampleInfo (parseProtocol [] short_record_message) = Some s /\
    sampleId s = None /\ sampleType s = lit "unknown".
Proof.
  destruct (sample_info_decoded [] short_record_message (lit "0|t"))
    as (s & Hs & _ & _ & Hid & _ & _ & _ & _ & Hmiss & _); [vm_compute; reflexivity|].
  exists s. split; [exact Hs|]. split.
  - rewrite Hid. reflexivity.
  - apply Hmiss. reflexivity.
Defined.

(** An empty fifth field is [Number("") = 0]: "whole_blood", not "unknown". *)
Lemma blank_code_whole_blood :
  nth_error (split_on "|"%char (lit "0|t|S1|A1|")) 4 = Some [] /\
  sampleInfo (parseProtocol [] blank_code_message) =
    Some (mkSample (Some (lit "0")) (Some (lit "t")) (Some (lit "S1")) (Some (lit "A1"))
            (S754_zero false) (lit "whole_blood")).
Proof. split; vm_compute; reflexivity. Qed.

(** Other spellings of the codes that [Number()] accepts. *)
Example sample_type_codes :
  map (fun f => sample_type_of (js_number (lit f)))
    ["1"; " 2 "; "3.0"; "0x1"; "1e0"; "-0"; "4"; "x"; "1a"]%string =
  [lit "quality_control"; lit "calibration"; lit "diluted"; lit "quality_control";
   lit "quality_control"; lit "whole_blood"; lit "unknown"; lit "unknown"; lit "unknown"].
Proof. vm_compute. reflexivity. Qed.

(** C6: in the <R> group, lines are trimmed and blank ones dropped; a line
    without a non-empty key half and a non-empty value half changes
    nothing; every entry comes from a line with both halves, with the
    value [parseFloat] of its value half and unit "%"; and a line whose
    value half does not parse gives an entry with value NaN and unit "%",
    unless a later line with the same key replaces it.  [parseProtocol] is
    a total function: no failure is raised. *)
Theorem results_lines (now raw body : text) :
  match_R (clean_of raw) = Some body ->
  (forall line, In line (r_lines body) -> line <> [] /\ In line (map trim (split_on LF body))) /\
  (forall acc line k rest, split_on "|"%char line = k :: rest ->
     k = [] \/ head rest = None \/ head rest = Some [] -> r_step acc line = acc) /\
  (forall k e, results (parseProtocol now raw) !! k = Some e ->
     exists line v rest, In line (r_lines body) /\ split_on "|"%char line = k :: v :: rest /\
       k <> [] /\ v <> [] /\ value e = parseFloat v /\ unit e = unit_pct) /\
  (forall pre line post k v rest,
     r_lines body = pre ++ line :: post ->
     split_on "|"%char line = k :: v :: rest -> k <> [] -> v <> [] -> parseFloat v = NaN ->
     (forall l v' r', In l post -> split_on "|"%char l = k :: v' :: r' -> v' = []) ->
     exists i, results (parseProtocol now raw) !! k = Some (mkEntry NaN unit_pct i)).
Proof.
  intros Hb. rewrite results_parseProtocol, Hb. split; [|split; [|split]].
  - intros line Hin. unfold r_lines in Hin. apply filter_In in Hin as [Hin Ht].
    split; [|done]. by destruct line.
  - intros acc line k rest Hs Hcase. unfold r_step. rewrite Hs.
    destruct Hcase as [-> | [-> | ->]]; [|done|].
    + by destruct (head rest).
    + by rewrite andb_false_r.
  - intros k e H.
    destruct (interpret_lookup_Some _ _ _ H) as (e0 & H0 & Hv & Hu & _).
    apply results_of_entries in H0 as (line & v & rest & Hin & Hs & Hk & Hv' & ->).
    exists line, v, rest. rewrite Hv, Hu. auto 10.
  - intros pre line post k v rest Hl Hs Hk Hv Hnan Hpost.
    assert (H : results_of body !! k = Some (mkEntry (parseFloat v) unit_pct None)).
    { unfold results_of. rewrite Hl. by apply fold_r_step_last with rest. }
    destruct (interpret (results_of body) !! k) as [e|] eqn:E.
    + destruct (interpret_lookup_Some _ _ _ E) as (e0 & H0 & Hve & Hue & _).
      rewrite H in H0. injection H0 as <-. simpl in Hve, Hue.
      exists (interpretation e). destruct e as [ve ue ie]. simpl in *.
      by rewrite Hve, Hue, Hnan.
    + apply (proj1 (interpret_lookup_None _ _)) in E. congruence.
Qed.

(** The line [HbA1c|abc] gives an entry with value NaN; the lines [X|],
    [|3] and [Y] give none. *)
Lemma results_lines_witness :
  match_R (clean_of results_message) = Some (lit "HbA1c|abc

X|
|3
Y
Z|1.5|extra") /\
  exists i, results (parseProtocol [] results_message) !! HbA1c = Some (mkEntry NaN unit_pct i).
Proof.
  assert (Hb : match_R (clean_of results_message) = Some (lit "HbA1c|abc

X|
|3
Y
Z|1.5|extra")) by (vm_compute; reflexivity).
  split; [exact Hb|].
  destruct (results_lines [] results_message _ Hb) as (_ & _ & _ & H).
  apply (H [] (lit "HbA1c|abc") [lit "X|"; lit "|3"; lit "Y"; lit "Z|1.5|extra"]
           HbA1c (lit "abc") []).
  - vm_compute. reflexivity.
  - vm_compute. reflexivity.
  - discriminate.
  - discriminate.
  - vm_compute. reflexivity.
  - intros l v' r' Hin Hs.
    destruct Hin as [<- | [<- | [<- | [<- | []]]]]; vm_compute in Hs; congruence.
Defined.

(** The whole map for that message. *)
Example results_message_decoded :
  map_to_list (results (parseProtocol [] results_message)) =
    map_to_list (<[HbA1c := mkEntry NaN unit_pct (Some (lit "Diabetes"))]>
                   (<[lit "Z" := mkEntry (num 15 (-1)) unit_pct None]> (∅ : gmap text result_entry))).
Proof. vm_compute. reflexivity. Qed.

(** C9: a section whose opening tag does not occur in the message leaves
    its part of the record at the default: [machineInfo] and [sampleInfo]
    stay [{}] ([None]) and [results] stays empty.  The decoder returns in
    every case, so [_handleCompleteMessage] emits "results", never
    "error". *)
Theorem absent_sections_default (now raw : text) :
  (includes (lit "<M>") raw = false -> machineInfo (parseProtocol now raw) = None) /\
  (includes (lit "<I>") raw = false -> sampleInfo (parseProtocol now raw) = None) /\
  (includes (lit "<R>") raw = false -> results (parseProtocol now raw) = ∅) /\
  (forall E : Type, handleCompleteMessage (@decode_protocol E now) raw =
                    EvResults (parseProtocol now raw)).
Proof.
  split; [|split; [|split]].
  - intros H. change (machineInfo (parseProtocol now raw)) with
      (option_map machine_of (match_M (clean_of raw))).
    by rewrite match_M_absent.
  - intros H. change (sampleInfo (parseProtocol now raw)) with
      (option_map sample_of (match_I (clean_of raw))).
    unfold match_I. rewrite match_ws_section_absent; [done| |done].
    apply lf_not_in_open. auto.
  - intros H. rewrite results_parseProtocol. unfold match_R.
    rewrite match_ws_section_absent; [|apply lf_not_in_open; auto|done].
    unfold interpret. by rewrite lookup_empty.
  - intros E. reflexivity.
Qed.

Lemma absent_sections_default_witness :
  machineInfo (parseProtocol [] bare_message) = None /\
  sampleInfo (parseProtocol [] bare_message) = None /\
  results (parseProtocol [] bare_message) = ∅.
Proof.
  destruct (absent_sections_default [] bare_message) as (HM & HI & HR & _).
  split; [apply HM|split; [apply HI|apply HR]]; vm_compute; reflexivity.
Defined.

(** ** Further properties of the framer *)

(** In IDLE, input that does not complete [<SEND>] emits nothing. *)
Lemma run_idle_no_start (b s : text) :
  includes START (b ++ s) = false ->
  state (fst (run (mkFramer IDLE b) s)) = IDLE /\ snd (run (mkFramer IDLE b) s) = [].
Proof.
  revert b; induction s as [|c s IH]; intros b H; [done|].
  cbn [run]. unfold consumeChar. cbn -[START END_ includes ceiling].
  rewrite (includes_app_false_l START (b ++ [c]) s) by (by rewrite <- app_assoc).
  cbn -[START END_ includes ceiling].
  destruct (ceiling <? Z.of_nat (length (b ++ [c])))%Z; cbn -[START END_ includes ceiling].
  - destruct (IH [] ) as [IH1 IH2].
    { simpl. destruct (includes START s) eqn:E; [|done].
      pose proof (includes_app_r START (b ++ [c]) s E) as E'.
      rewrite <- app_assoc in E'. simpl in E'. congruence. }
    destruct (run (mkFramer IDLE []) s) as [f2 os]. simpl in *. done.
  - destruct (IH (b ++ [c])) as [IH1 IH2]; [by rewrite <- app_assoc|].
    destruct (run (mkFramer IDLE (b ++ [c])) s) as [f2 os]. simpl in *. done.
Qed.

(** Emitted messages are consecutive, non-overlapping pieces of what the
    framer has seen: its buffer followed by the input. *)
Lemma in_order_app_l (ms : list text) (x s : text) : in_order ms s -> in_order ms (x ++ s).
Proof.
  destruct ms as [|m ms]; simpl; [done|].
  intros (p & q & -> & H). exists (x ++ p), q. split; [|done]. by rewrite <- app_assoc.
Qed.

Lemma run_in_order (f : framer) (s : text) :
  inv f -> in_order (snd (run f s)) (messageBuffer f ++ s).
Proof.
  revert f; induction s as [|c s IH]; intros f Hf; simpl; [done|].
  destruct (consumeChar_history f c (messageBuffer f) Hf (ex_intro _ [] eq_refl)) as [H1 _].
  destruct (consumeChar_bound f c) as [_ H2].
  pose proof (consumeChar_inv f c Hf) as Hf1.
  destruct (consumeChar f c) as [f1 o] eqn:E. simpl in *.
  pose proof (IH f1 Hf1) as IH1.
  destruct (run f1 s) as [f2 os]. simpl in *.
  destruct o as [m|]; simpl.
  - rewrite (H2 m eq_refl). exists [], s. split; [by rewrite <- app_assoc|].
    (* after an emission the buffer is empty *)
    destruct (consumeChar_emits f c f1 m Hf E) as (_ & _ & Hfresh & _).
    subst f1. exact IH1.
  - destruct H1 as [p Hp].
    replace (messageBuffer f ++ c :: s) with ((messageBuffer f ++ [c]) ++ s)
      by (by rewrite <- app_assoc).
    rewrite Hp, <- app_assoc. by apply in_order_app_l.
Qed.

(** *** Framer properties *)

(** From a fresh framer, the buffer never holds more than 100,000
    characters, and no emitted message is longer than 100,001. *)
Theorem framer_bounded (s : text) :
  (Z.of_nat (length (messageBuffer (fst (run fresh s)))) <= ceiling)%Z /\
  Forall (fun m => (Z.of_nat (length m) <= ceiling + 1)%Z) (snd (run fresh s)).
Proof. apply run_bound. simpl. unfold ceiling. lia. Qed.

(** Input without [<SEND>] emits no message and leaves a fresh framer
    IDLE. *)
Theorem no_start_no_message (s : text) :
  includes START s = false ->
  state (fst (run fresh s)) = IDLE /\ snd (run fresh s) = [].
Proof. intros H. by apply run_idle_no_start. Qed.

Lemma no_start_no_message_witness :
  state (fst (run fresh (lit "<SEN</SEND>x"))) = IDLE /\
  snd (run fresh (lit "<SEN</SEND>x")) = [].
Proof. apply no_start_no_message. vm_compute. reflexivity. Defined.

(** The messages emitted from a fresh framer are pieces of the input, in
    the order they were emitted, and no two of them overlap. *)
Theorem messages_in_order (s : text) : in_order (snd (run fresh s)) s.
Proof. apply (run_in_order fresh s fresh_inv). Qed.


(** ** Further properties of [parseProtocol] *)

(** *** Line endings *)

Lemma replace_crlf_cons_ne (c : ascii) (t : text) :
  c <> CR \/ head t <> Some LF -> replace_crlf (c :: t) = c :: replace_crlf t.
Proof.
  intros H. destruct t as [|d t]; [done|]. rewrite replace_crlf_cons2.
  destruct H as [H|H].
  - by rewrite (bool_decide_false (c = CR)).
  - rewrite (bool_decide_false (d = LF)) by (intros ->; by apply H).
    by rewrite andb_false_r.
Qed.

Lemma replace_crlf_to_crlf (s : text) : CR ∉ s -> replace_crlf (to_crlf s) = s.
Proof.
  induction s as [|c s IH]; intros Hs; [done|].
  unfold to_crlf. cbn [flat_map]. fold (to_crlf s).
  assert (Hc : c <> CR) by set_solver.
  case_bool_decide as Hl.
  - subst c. cbn [app]. rewrite replace_crlf_cons2.
    rewrite (bool_decide_true (CR = CR)), (bool_decide_true (LF = LF)) by done.
    simpl. rewrite IH; [done|set_solver].
  - cbn [app]. rewrite replace_crlf_cons_ne by auto. rewrite IH; [done|set_solver].
Qed.

Lemma replace_crlf_no_lf (s : text) : LF ∉ s -> replace_crlf s = s.
Proof.
  induction s as [|c s IH]; intros Hs; [done|].
  rewrite replace_crlf_cons_ne.
  - rewrite IH; [done|set_solver].
  - right. destruct s as [|d s]; simpl; [done|]. intros [= ->]. set_solver.
Qed.

Lemma replace_cr_no_cr (s : text) : CR ∉ s -> replace_cr s = s.
Proof.
  induction s as [|c s IH]; intros Hs; [done|].
  unfold replace_cr in *. cbn [map]. rewrite IH by set_solver.
  rewrite bool_decide_false by set_solver. done.
Qed.

Lemma replace_crlf_no_cr (s : text) : CR ∉ s -> replace_crlf s = s.
Proof.
  induction s as [|c s IH]; intros Hs; [done|].
  rewrite replace_crlf_cons_ne by (left; set_solver).
  rewrite IH; [done|set_solver].
Qed.

Lemma clean_of_lf (s : text) : CR ∉ s -> clean_of s = s.
Proof.
  intros Hs. unfold clean_of. by rewrite replace_crlf_no_cr, replace_cr_no_cr.
Qed.

Lemma clean_of_to_crlf (s : text) : CR ∉ s -> clean_of (to_crlf s) = s.
Proof.
  intros Hs. unfold clean_of. rewrite replace_crlf_to_crlf by done.
  by apply replace_cr_no_cr.
Qed.

Lemma clean_of_to_cr (s : text) : CR ∉ s -> clean_of (to_cr s) = s.
Proof.
  intros Hs. unfold clean_of. rewrite replace_crlf_no_lf.
  - induction s as [|c s IH]; [done|].
    unfold to_cr, replace_cr in *. cbn [map]. rewrite IH by set_solver.
    destruct (decide (c = LF)) as [->|Hl].
    + rewrite (bool_decide_true (LF = LF)), (bool_decide_true (CR = CR)) by done. done.
    + rewrite (bool_decide_false (c = LF)), (bool_decide_false (c = CR)) by set_solver. done.
  - induction s as [|c s IH]; [set_solver|].
    unfold to_cr in *. cbn [map]. intros Hin. apply elem_of_cons in Hin as [Hin|Hin].
    + destruct (decide (c = LF)) as [->|Hl].
      * rewrite (bool_decide_true (LF = LF)) in Hin by done. discriminate.
      * rewrite (bool_decide_false (c = LF)) in Hin by done. by subst c.
    + apply IH; [set_solver|done].
Qed.

(** *** Where the characters of the decoded fields come from *)

Lemma split_on_chars (sep : ascii) (s w : text) (x : ascii) :
  In w (split_on sep s) -> In x w -> In x s /\ x <> sep.
Proof.
  revert w; induction s as [|c s IH]; intros w Hw Hx; simpl in Hw.
  - destruct Hw as [<-|[]]. done.
  - case_bool_decide as Hc.
    + destruct Hw as [<-|Hw]; [done|].
      destruct (IH w Hw Hx). split; [by right|done].
    + destruct (split_on sep s) as [|w0 ws] eqn:E.
      * destruct Hw as [<-|[]]. destruct Hx as [<-|[]]. split; [by left|done].
      * destruct Hw as [<-|Hw].
        -- destruct Hx as [<-|Hx]; [split; [by left|done]|].
           destruct (IH w0 (or_introl eq_refl) Hx). split; [by right|done].
        -- destruct (IH w (or_intror Hw) Hx). split; [by right|done].
Qed.

Lemma trim_start_chars (s : text) (x : ascii) : In x (trim_start s) -> In x s.
Proof.
  induction s as [|c s IH]; simpl; [done|].
  destruct (is_js_space c); [auto|done].
Qed.

Lemma trim_chars (s : text) (x : ascii) : In x (trim s) -> In x s.
Proof.
  unfold trim, trim_end. intros H.
  apply in_rev, trim_start_chars, in_rev, trim_start_chars in H. exact H.
Qed.

Lemma drop_chars (n : nat) (s : text) (x : ascii) : In x (drop n s) -> In x s.
Proof.
  revert s; induction n as [|n IH]; intros s; [done|].
  destruct s as [|c s]; simpl; [done|]. auto.
Qed.

Lemma search_chars {A} (try : text -> option A) (chars : A -> text) (s : text) (g : A) (x : ascii) :
  (forall t g, try t = Some g -> In x (chars g) -> In x t) ->
  search try s = Some g -> In x (chars g) -> In x s.
Proof.
  intros Ht. induction s as [|c s IH]; cbn [search].
  - destruct (try []) eqn:E; [|done]. intros [= <-] Hx. exact (Ht [] _ E Hx).
  - destruct (try (c :: s)) eqn:E.
    + intros [= <-] Hx. exact (Ht _ _ E Hx).
    + intros Hs Hx. right. by apply IH.
Qed.

Lemma lazy_any_ws_chars (close acc s g : text) (x : ascii) :
  lazy_any_ws close acc s = Some g -> In x g -> In x acc \/ In x s.
Proof.
  revert acc; induction s as [|c s IH]; intros acc; cbn [lazy_any_ws].
  - destruct (prefixb close (trim_start [])); [|done].
    intros [= <-] Hx. left. by apply in_rev.
  - destruct (prefixb close (trim_start (c :: s))).
    + intros [= <-] Hx. left. by apply in_rev.
    + intros H Hx. destruct (IH (c :: acc) H Hx) as [[Hc|Hc]|Hc].
      * right. left. exact Hc.
      * left. exact Hc.
      * right. right. exact Hc.
Qed.

Lemma lazy_dot_chars (close acc s g : text) (x : ascii) :
  (forall y, In y acc -> is_line_terminator y = false) ->
  lazy_dot close acc s = Some g -> In x g -> is_line_terminator x = false.
Proof.
  revert acc; induction s as [|c s IH]; intros acc Hacc; cbn [lazy_dot].
  - destruct (prefixb close []); [|done]. intros [= <-] Hx. apply Hacc. by apply in_rev.
  - destruct (prefixb close (c :: s)).
    + intros [= <-] Hx. apply Hacc. by apply in_rev.
    + destruct (is_line_terminator c) eqn:Ec; [done|].
      apply IH. intros y [<-|Hy]; auto.
Qed.

Lemma match_ws_section_chars (open close s g : text) (x : ascii) :
  match_ws_section open close s = Some g -> In x g -> In x s.
Proof.
  apply (search_chars _ id). intros t g' Ht Hx.
  destruct (prefixb open t); [|done].
  destruct (lazy_any_ws_chars _ _ _ _ x Ht Hx) as [[]|H].
  by apply drop_chars with (length open), trim_start_chars.
Qed.

Lemma clean_of_no_cr (raw : text) : ~ In CR (clean_of raw).
Proof.
  unfold clean_of, replace_cr. intros H. apply in_map_iff in H as (c & Hc & _).
  destruct (bool_decide (c = CR)) eqn:E; [discriminate|].
  apply bool_decide_eq_false in E. congruence.
Qed.

(** *** Decoder properties *)

(** A message written with LF line endings decodes to the same machine,
    sample and results information when its line endings are CR LF or CR. *)
Theorem line_endings_agnostic (now s raw : text) :
  CR ∉ s -> raw = to_crlf s \/ raw = to_cr s ->
  machineInfo (parseProtocol now raw) = machineInfo (parseProtocol now s) /\
  sampleInfo (parseProtocol now raw) = sampleInfo (parseProtocol now s) /\
  results (parseProtocol now raw) = results (parseProtocol now s).
Proof.
  intros Hs Hraw.
  assert (E : clean_of raw = clean_of s).
  { rewrite (clean_of_lf s Hs).
    destruct Hraw as [->| ->]; [by apply clean_of_to_crlf|by apply clean_of_to_cr]. }
  unfold parseProtocol. cbn [machineInfo sampleInfo results]. by rewrite E.
Qed.

Lemma line_endings_agnostic_witness :
  machineInfo (parseProtocol [] (to_crlf spec_example)) =
    machineInfo (parseProtocol [] spec_example) /\
  sampleInfo (parseProtocol [] (to_crlf spec_example)) =
    sampleInfo (parseProtocol [] spec_example) /\
  results (parseProtocol [] (to_crlf spec_example)) =
    results (parseProtocol [] spec_example).
Proof.
  apply (line_endings_agnostic [] spec_example).
  - apply (bool_decide_unpack _). vm_compute. reflexivity.
  - by left.
Defined.

(** Only the entry keyed exactly [HbA1c] gets an interpretation, and it
    always gets one (whatever its value). *)
Theorem interpretation_only_hba1c (now raw k : text) (e : result_entry) :
  results (parseProtocol now raw) !! k = Some e ->
  (interpretation e <> None <-> k = HbA1c).
Proof.
  rewrite results_parseProtocol. intros H.
  destruct (interpret_lookup_Some _ _ _ H) as (e0 & H0 & _ & _ & Hhb & Hne).
  destruct (decide (k = HbA1c)) as [->|Hk].
  - rewrite (Hhb eq_refl). done.
  - rewrite (Hne Hk). rewrite (results_uninterpreted now raw k e0 H0). done.
Qed.

Lemma interpretation_only_hba1c_witness :
  results (parseProtocol [] spec_example) !! HbA1c =
    Some (mkEntry (num 54 (-1)) unit_pct (Some (lit "Normal"))) /\
  (interpretation (mkEntry (num 54 (-1)) unit_pct (Some (lit "Normal"))) <> None <-> HbA1c = HbA1c).
Proof.
  assert (H : results (parseProtocol [] spec_example) !! HbA1c =
                Some (mkEntry (num 54 (-1)) unit_pct (Some (lit "Normal"))))
    by (vm_compute; reflexivity).
  split; [exact H|]. exact (interpretation_only_hba1c [] spec_example HbA1c _ H).
Defined.

(** With repeated keys the last line with both halves wins: its value
    (parsed with [parseFloat]) and unit "%" are what [results] holds. *)
Theorem results_last_line_wins (now raw body : text) (pre post : list text)
    (line k v : text) (rest : list text) :
  match_R (clean_of raw) = Some body ->
  r_lines body = pre ++ line :: post ->
  split_on "|"%char line = k :: v :: rest -> k <> [] -> v <> [] ->
  (forall l v' r', In l post -> split_on "|"%char l = k :: v' :: r' -> v' = []) ->
  exists e, results (parseProtocol now raw) !! k = Some e /\
    value e = parseFloat v /\ unit e = unit_pct.
Proof.
  intros Hb Hl Hs Hk Hv Hpost.
  assert (H : results_of body !! k = Some (mkEntry (parseFloat v) unit_pct None)).
  { unfold results_of. rewrite Hl. by apply fold_r_step_last with rest. }
  rewrite results_parseProtocol, Hb.
  destruct (interpret (results_of body) !! k) as [e|] eqn:E.
  - destruct (interpret_lookup_Some _ _ _ E) as (e0 & H0 & Hve & Hue & _).
    rewrite H in H0. injection H0 as <-. exists e. auto.
  - apply (proj1 (interpret_lookup_None _ _)) in E. congruence.
Qed.

Lemma results_last_line_wins_witness :
  exists e, results (parseProtocol [] (lit "<SEND><R>A|1
A|2
A|</R></SEND>")) !! lit "A" = Some e /\ value e = parseFloat (lit "2") /\ unit e = unit_pct.
Proof.
  apply (results_last_line_wins [] _ (lit "A|1
A|2
A|") [lit "A|1"] [lit "A|"] (lit "A|2") (lit "A") (lit "2") []).
  - vm_compute. reflexivity.
  - vm_compute. reflexivity.
  - vm_compute. reflexivity.
  - discriminate.
  - discriminate.
  - intros l v' r' [<- | []] Hs. vm_compute in Hs. congruence.
Defined.

(** Keys of [results] are never empty and never contain ['|'], LF or CR. *)
Theorem result_keys_wellformed (now raw k : text) (e : result_entry) :
  results (parseProtocol now raw) !! k = Some e ->
  k <> [] /\ forall x, In x k -> x <> "|"%char /\ x <> LF /\ x <> CR.
Proof.
  rewrite results_parseProtocol. intros H.
  destruct (interpret_lookup_Some _ _ _ H) as (e0 & H0 & _).
  destruct (match_R (clean_of raw)) as [body|] eqn:Hb; [|by rewrite lookup_empty in H0].
  apply results_of_entries in H0 as (line & v & rest & Hin & Hs & Hk & _).
  split; [done|]. intros x Hx.
  unfold r_lines in Hin. apply filter_In in Hin as [Hin _].
  apply in_map_iff in Hin as (w & <- & Hw).
  destruct (split_on_chars "|"%char (trim w) k x) as [Hxl Hbar]; [by rewrite Hs; left|done|].
  apply trim_chars in Hxl.
  destruct (split_on_chars LF body w x Hw Hxl) as [Hxb Hlf].
  repeat split; [done|done|].
  intros ->. apply (clean_of_no_cr raw).
  exact (match_ws_section_chars _ _ _ _ _ Hb Hxb).
Qed.

Lemma result_keys_wellformed_witness :
  results (parseProtocol [] spec_example) !! HbA1c =
    Some (mkEntry (num 54 (-1)) unit_pct (Some (lit "Normal"))) /\
  HbA1c <> [] /\ forall x, In x HbA1c -> x <> "|"%char /\ x <> LF /\ x <> CR.
Proof.
  assert (H : results (parseProtocol [] spec_example) !! HbA1c =
                Some (mkEntry (num 54 (-1)) unit_pct (Some (lit "Normal"))))
    by (vm_compute; reflexivity).
  split; [exact H|]. exact (result_keys_wellformed [] spec_example HbA1c _ H).
Defined.

Lemma search_prop {A} (try : text -> option A) (P : A -> Prop) (s : text) (g : A) :
  (forall t g, try t = Some g -> P g) -> search try s = Some g -> P g.
Proof.
  intros Ht. induction s as [|c s IH]; cbn [search].
  - destruct (try []) eqn:E; [|done]. intros [= <-]. exact (Ht _ _ E).
  - destruct (try (c :: s)) eqn:E; [|exact IH]. intros [= <-]. exact (Ht _ _ E).
Qed.

(** [model] and [serialNumber] never contain ['|'] or a line break: the
    <M> section is read on one line and split on ['|']. *)
Theorem machine_fields_single_line (now raw : text) (mi : machine_fields) (m : text) :
  machineInfo (parseProtocol now raw) = Some mi ->
  model mi = Some m \/ serialNumber mi = Some m ->
  forall x, In x m -> x <> "|"%char /\ is_line_terminator x = false.
Proof.
  change (machineInfo (parseProtocol now raw)) with (option_map machine_of (match_M (clean_of raw))).
  destruct (match_M (clean_of raw)) as [g|] eqn:Hg; [|done].
  intros [= <-] Hm x Hx. unfold machine_of in Hm. cbn [model serialNumber] in Hm.
  assert (Hw : exists w, In w (split_on "|"%char g) /\ m = trim w).
  { destruct Hm as [Hm|Hm];
      [destruct (nth_error (split_on "|"%char g) 0) as [w|] eqn:E
      |destruct (nth_error (split_on "|"%char g) 1) as [w|] eqn:E]; try discriminate;
      injection Hm as <-; exists w; split; [|done| |done]; by eapply nth_error_In. }
  destruct Hw as (w & Hw & ->). apply trim_chars in Hx.
  destruct (split_on_chars _ _ _ _ Hw Hx) as [Hxg Hbar]. split; [done|].
  unfold match_M in Hg.
  refine (search_prop _ (fun g => In x g -> is_line_terminator x = false) _ g _ Hg Hxg).
  intros t g'. destruct (prefixb (lit "<M>") t); [|done].
  intros Ht Hx'. by apply (lazy_dot_chars _ [] _ _ x (fun y (H : In y []) => match H with end) Ht).
Qed.

Lemma machine_fields_single_line_witness :
  machineInfo (parseProtocol [] spec_example) =
    Some (mkMachine (Some (lit "GQ-1000")) (Some (lit "SN123"))) /\
  forall x, In x (lit "GQ-1000") -> x <> "|"%char /\ is_line_terminator x = false.
Proof.
  assert (H : machineInfo (parseProtocol [] spec_example) =
                Some (mkMachine (Some (lit "GQ-1000")) (Some (lit "SN123"))))
    by (vm_compute; reflexivity).
  split; [exact H|].
  exact (machine_fields_single_line [] spec_example _ (lit "GQ-1000") H (or_introl eq_refl)).
Defined.

(** *** Logging and port configuration *)

Lemma control_label_clean (c : ascii) :
  forallb (fun y => negb (is_logged_control y)) (control_label c) = true.
Proof. destruct c as [[] [] [] [] [] [] [] []]; reflexivity. Qed.

(** The logged form of a chunk contains none of the replaced control
    characters, and a chunk without them is logged unchanged (TAB, LF, CR
    and code points from U+0080 included). *)
Theorem printable_sanitizes (s : text) :
  (forall y, In y (printable s) -> is_logged_control y = false) /\
  ((forall c, In c s -> is_logged_control c = false) -> printable s = s).
Proof.
  split.
  - intros y Hy. unfold printable in Hy. apply in_flat_map in Hy as (c & _ & Hy).
    destruct (is_logged_control c) eqn:Ec.
    + pose proof (control_label_clean c) as H. rewrite forallb_forall in H.
      apply H in Hy. by destruct (is_logged_control y).
    + destruct Hy as [<-|[]]. exact Ec.
  - induction s as [|c s IH]; intros H; [done|].
    unfold printable in *. cbn [flat_map]. rewrite (H c (or_introl eq_refl)).
    cbn [app]. f_equal. apply IH. intros c' Hc'. apply H. by right.
Qed.

Lemma printable_sanitizes_witness :
  printable (lit "<SEND>	x") = lit "<SEND>	x" /\
  printable (lit "a") = lit "a".
Proof.
  split; apply printable_sanitizes; intros c Hc; simpl in Hc;
    repeat (destruct Hc as [<-|Hc]; [reflexivity|]); destruct Hc.
Defined.

